(** * Endpoint lifecycle of the container-networking plugin

    A shallow embedding of [network/endpoint.go]: the endpoint record, its
    read-only projection [EndpointInfo], the endpoint directory owned by a
    network, and the operations that create, look up, update, attach,
    detach, validate and delete endpoints.

    Conventions of the embedding.
    - A Go [string] is a sequence of bytes: Rocq's [string].
    - A Go [int] is an integer: [Z] (no arithmetic is performed on them here).
    - A slice is the list of its elements; a byte slice is [list Byte.byte].
    - A pointer to an endpoint is an address [ptr] into a heap of endpoint
      objects; the map from strings to such pointers is a finite map from
      identifiers to addresses.
    - A Go [error] result is [option error] ([None] is [nil]); a returned
      pair of a pointer and an error is a [result].
    - Logging has no effect on the state and is left out. *)

From Stdlib Require Import ZArith Ascii String List Permutation.
From stdpp Require Import base option strings list functions gmap.

#[local] Open Scope string_scope.
#[local] Open Scope list_scope.
#[local] Open Scope stdpp_scope.
#[local] Open Scope nat_scope.

(** ** Types declared outside this file *)

(** The types below are declared in other files or packages ([DNSInfo],
    [SubnetInfo] in the network package, [policy.Policy], [policy.NATInfo],
    [cns.GetNetworkContainerResponse], and the dynamic type [interface{}]).
    Nothing in this file inspects their values, so they are carried as
    type parameters. *)
Record Foreign : Type := {
  DNSInfo : Type;
  Policy : Type;
  NATInfo : Type;
  SubnetInfo : Type;
  Any : Type;
  NCResponse : Type;
}.

(** ** Errors *)

(** The package-level error values used in this file, and the two
    constructors of [github.com/pkg/errors] it calls. *)
Inductive error : Type :=
  | errEndpointNotFound
  | errMultipleEndpointsFound
  | errEndpointInUse
  | errEndpointNotInUse
  | errorsNew (message : string)
  | errorsWrap (cause : error) (message : string).

Inductive result (A : Type) : Type :=
  | Ok (a : A)
  | Err (e : error).
Arguments Ok {A} a.
Arguments Err {A} e.

(** The names the specification gives to the error kinds. *)
Definition EndpointNotFound : error := errEndpointNotFound.
Definition AmbiguousMatch : error := errMultipleEndpointsFound.
Definition AlreadyAttached : error := errEndpointInUse.
Definition NotAttached : error := errEndpointNotInUse.
Definition InvalidEndpoint : error :=
  errorsWrap (errorsNew "endpoint struct must contain a container id and nic type")
             "failed to validate endpoint struct".
Definition MultipleContainerIDs : error :=
  errorsNew "multiple distinct container ids detected".

(** ** Value objects *)

Definition HardwareAddr : Type := list Byte.byte.
Definition IP : Type := list Byte.byte.

Record IPNet : Type := {
  IPNet_IP : IP;
  IPNet_Mask : list Byte.byte;
}.

Record RouteInfo : Type := {
  Dst : IPNet;
  Src : IP;
  Gw : IP;
  Protocol : Z;
  DevName : string;
  Scope : Z;
  Priority : Z;
  Table : Z;
}.

Record IPConfig : Type := {
  Address : IPNet;
  Gateway : IP;
}.

Module InterfaceInfo.
#[local] Set Implicit Arguments.
Record t (F : Foreign) : Type := {
  Name : string;
  MacAddress : HardwareAddr;
  IPConfigs : list IPConfig;
  Routes : list RouteInfo;
  DNS : DNSInfo F;
  NICType : string;
  SkipDefaultRoutes : bool;
  HostSubnetPrefix : IPNet;
  NCResponse : option (NCResponse F);
  PnPID : string;
  EndpointPolicies : list (Policy F);
}.
End InterfaceInfo.

(** ** The endpoint record *)

Module endpoint.
#[local] Set Implicit Arguments.
Record t (F : Foreign) : Type := {
  Id : string;
  HnsId : string;
  HNSNetworkID : string;
  SandboxKey : string;
  IfName : string;
  HostIfName : string;
  MacAddress : HardwareAddr;
  InfraVnetIP : IPNet;
  LocalIP : string;
  IPAddresses : list IPNet;
  Gateways : list IP;
  DNS : DNSInfo F;
  Routes : list RouteInfo;
  VlanID : Z;
  EnableSnatOnHost : bool;
  EnableInfraVnet : bool;
  EnableMultitenancy : bool;
  AllowInboundFromHostToNC : bool;
  AllowInboundFromNCToHost : bool;
  NetworkContainerID : string;
  NetworkNameSpace : string;
  ContainerID : string;
  PODName : string;
  PODNameSpace : string;
  InfraVnetAddressSpace : string;
  NetNs : string;
  SecondaryInterfaces : gmap string (InterfaceInfo.t F);
  NICType : string;
}.

(** [ep.SandboxKey = key] *)
Definition set_SandboxKey {F} (key : string) (ep : t F) : t F :=
  {| Id := Id ep; HnsId := HnsId ep; HNSNetworkID := HNSNetworkID ep;
     SandboxKey := key;
     IfName := IfName ep; HostIfName := HostIfName ep;
     MacAddress := MacAddress ep; InfraVnetIP := InfraVnetIP ep;
     LocalIP := LocalIP ep; IPAddresses := IPAddresses ep;
     Gateways := Gateways ep; DNS := DNS ep; Routes := Routes ep;
     VlanID := VlanID ep; EnableSnatOnHost := EnableSnatOnHost ep;
     EnableInfraVnet := EnableInfraVnet ep;
     EnableMultitenancy := EnableMultitenancy ep;
     AllowInboundFromHostToNC := AllowInboundFromHostToNC ep;
     AllowInboundFromNCToHost := AllowInboundFromNCToHost ep;
     NetworkContainerID := NetworkContainerID ep;
     NetworkNameSpace := NetworkNameSpace ep; ContainerID := ContainerID ep;
     PODName := PODName ep; PODNameSpace := PODNameSpace ep;
     InfraVnetAddressSpace := InfraVnetAddressSpace ep; NetNs := NetNs ep;
     SecondaryInterfaces := SecondaryInterfaces ep; NICType := NICType ep |}.

(** [ep.Routes = routes] *)
Definition set_Routes {F} (routes : list RouteInfo) (ep : t F) : t F :=
  {| Id := Id ep; HnsId := HnsId ep; HNSNetworkID := HNSNetworkID ep;
     SandboxKey := SandboxKey ep;
     IfName := IfName ep; HostIfName := HostIfName ep;
     MacAddress := MacAddress ep; InfraVnetIP := InfraVnetIP ep;
     LocalIP := LocalIP ep; IPAddresses := IPAddresses ep;
     Gateways := Gateways ep; DNS := DNS ep; Routes := routes;
     VlanID := VlanID ep; EnableSnatOnHost := EnableSnatOnHost ep;
     EnableInfraVnet := EnableInfraVnet ep;
     EnableMultitenancy := EnableMultitenancy ep;
     AllowInboundFromHostToNC := AllowInboundFromHostToNC ep;
     AllowInboundFromNCToHost := AllowInboundFromNCToHost ep;
     NetworkContainerID := NetworkContainerID ep;
     NetworkNameSpace := NetworkNameSpace ep; ContainerID := ContainerID ep;
     PODName := PODName ep; PODNameSpace := PODNameSpace ep;
     InfraVnetAddressSpace := InfraVnetAddressSpace ep; NetNs := NetNs ep;
     SecondaryInterfaces := SecondaryInterfaces ep; NICType := NICType ep |}.
End endpoint.

(** ** The read-only projection *)

Module EndpointInfo.
#[local] Set Implicit Arguments.
Record t (F : Foreign) : Type := {
  EndpointID : string;
  ContainerID : string;
  NetNsPath : string;
  IfName : string;
  SandboxKey : string;
  IfIndex : Z;
  MacAddress : HardwareAddr;
  EndpointDNS : DNSInfo F;
  IPAddresses : list IPNet;
  IPsToRouteViaHost : list string;
  InfraVnetIP : IPNet;
  Routes : list RouteInfo;
  EndpointPolicies : list (Policy F);
  NetworkPolicies : list (Policy F);
  Gateways : list IP;
  EnableSnatOnHost : bool;
  EnableInfraVnet : bool;
  EnableMultiTenancy : bool;
  EnableSnatForDns : bool;
  AllowInboundFromHostToNC : bool;
  AllowInboundFromNCToHost : bool;
  NetworkContainerID : string;
  PODName : string;
  PODNameSpace : string;
  Data : gmap string (Any F);
  InfraVnetAddressSpace : string;
  SkipHotAttachEp : bool;
  IPV6Mode : string;
  VnetCidrs : string;
  ServiceCidrs : string;
  NATInfo : list (NATInfo F);
  NICType : string;
  SkipDefaultRoutes : bool;
  HNSEndpointID : string;
  HNSNetworkID : string;
  HostIfName : string;
  MasterIfName : string;
  AdapterName : string;
  NetworkID : string;
  Mode : string;
  Subnets : list (SubnetInfo F);
  BridgeName : string;
  NetNs : string;
  Options : gmap string (Any F);
  DisableHairpinOnHostInterface : bool;
  IsIPv6Enabled : bool;
  HostSubnetPrefix : string;
  PnPID : string;
}.
End EndpointInfo.

(** ** Strings *)

(** [strings.Split(s, sep)] for a separator of one byte, the only way this
    file calls it: the substrings between the occurrences of [sep], in
    order. A string with [n] occurrences yields [n + 1] substrings, so the
    result is never empty (the empty string yields one empty substring) and
    the last branch of the inner [match] is never taken. *)
Fixpoint Split (s : string) (sep : ascii) : list string :=
  match s with
  | EmptyString => [EmptyString]
  | String c rest =>
      if Ascii.eqb c sep then EmptyString :: Split rest sep
      else match Split rest sep with
           | seg :: segs => String c seg :: segs
           | [] => [String c EmptyString]
           end
  end.

(** [strings.Join(elems, sep)] *)
Fixpoint Join (elems : list string) (sep : string) : string :=
  match elems with
  | [] => EmptyString
  | [e] => e
  | e :: rest => e +:+ sep +:+ Join rest sep
  end.

Definition hyphen : ascii := "-"%char.

(** Number of hyphens in a string. *)
Fixpoint hyphens (s : string) : nat :=
  match s with
  | EmptyString => 0
  | String c rest => (if Ascii.eqb c hyphen then 1 else 0) + hyphens rest
  end.

Definition GetPodNameWithoutSuffix (podName : string) : string :=
  let nameSplit := Split podName hyphen in
  if (2 <? length nameSplit)%nat
  then Join (take (length nameSplit - 2) nameSplit) "-"
  else podName.

Definition podNameMatches (source actualValue : string) (doExactMatch : bool) : bool :=
  if doExactMatch then String.eqb source actualValue
  else String.eqb actualValue (GetPodNameWithoutSuffix source).

(** ** Operations on one endpoint *)

Section Endpoint.
Context {F : Foreign}.

(** [attach] and [detach] have a pointer receiver and assign one field of
    it: they take the endpoint and return it as it is after the call,
    together with the error. *)
Definition attach (ep : endpoint.t F) (sandboxKey : string) : endpoint.t F * option error :=
  if negb (String.eqb (endpoint.SandboxKey ep) "") then (ep, Some errEndpointInUse)
  else (endpoint.set_SandboxKey sandboxKey ep, None).

Definition detach (ep : endpoint.t F) : endpoint.t F * option error :=
  if String.eqb (endpoint.SandboxKey ep) "" then (ep, Some errEndpointNotInUse)
  else (endpoint.set_SandboxKey "" ep, None).

Definition IsEndpointStateIncomplete (epInfo : EndpointInfo.t F) : bool :=
  if String.eqb (EndpointInfo.HNSEndpointID epInfo) ""
     && String.eqb (EndpointInfo.HostIfName epInfo) ""
  then true
  else false.

Definition validateEndpoint (ep : endpoint.t F) : option error :=
  if String.eqb (endpoint.ContainerID ep) "" || String.eqb (endpoint.NICType ep) ""
  then Some (errorsNew "endpoint struct must contain a container id and nic type")
  else None.

(** The loop of [validateEndpoints], with the set [containerIDs] built so
    far as an argument; [len(containerIDs)] is the size of the set. *)
Fixpoint validateEndpoints_loop (containerIDs : gset string) (eps : list (endpoint.t F))
  : option error :=
  match eps with
  | [] => None
  | ep :: rest =>
      match validateEndpoint ep with
      | Some err => Some (errorsWrap err "failed to validate endpoint struct")
      | None =>
          let containerIDs := {[ endpoint.ContainerID ep ]} ∪ containerIDs in
          if negb (size containerIDs =? 1)%nat
          then Some (errorsNew "multiple distinct container ids detected")
          else validateEndpoints_loop containerIDs rest
      end
  end.

Definition validateEndpoints (eps : list (endpoint.t F)) : option error :=
  validateEndpoints_loop ∅ eps.

End Endpoint.

(** ** The network and its endpoint directory *)

(** Address of an endpoint object. A pointer that is [nil] is written
    [None] where the code can meet one. *)
Definition ptr : Type := positive.

(** The endpoint objects, by address. *)
Definition heap (F : Foreign) : Type := ptr → endpoint.t F.

Module network.
(** Modelled from the spec: the declaration of the [network] struct is in
    another file of the package. The record has the two fields this file
    reads, the network identifier and the directory, an in-memory mapping
    from endpoint identifier to endpoint. The directory holds pointers; the
    one place that stores into it, [newEndpoint], has dereferenced the
    pointer before, so no entry is [nil]. *)
Record t : Type := {
  Id : string;
  Endpoints : gmap string ptr;
}.

(** [nw.Endpoints = endpoints] *)
Definition set_Endpoints (endpoints : gmap string ptr) (nw : t) : t :=
  {| Id := Id nw; Endpoints := endpoints |}.
End network.

(** [getEndpoint] returns the endpoint with the given identifier. *)
Definition getEndpoint (nw : network.t) (endpointId : string) : result ptr :=
  match network.Endpoints nw !! endpointId with
  | None => Err errEndpointNotFound
  | Some ep => Ok ep
  end.

Section Directory.
Context {F : Foreign}.

(** The test of the loop body of [getEndpointByPOD]. *)
Definition matchesPOD (endpoint : endpoint.t F) (podName podNameSpace : string)
    (doExactMatchForPodName : bool) : bool :=
  podNameMatches (endpoint.PODName endpoint) podName doExactMatchForPodName
  && String.eqb (endpoint.PODNameSpace endpoint) podNameSpace.

(** The loop of [getEndpointByPOD] over the entries still to visit, with
    the local variable [ep] as an argument, followed by the code after the
    loop. *)
Fixpoint getEndpointByPOD_loop (h : heap F) (podName podNameSpace : string)
    (doExactMatchForPodName : bool) (ep : option ptr) (entries : list (string * ptr))
  : result ptr :=
  match entries with
  | [] =>
      match ep with
      | None => Err errEndpointNotFound
      | Some ep => Ok ep
      end
  | (_, endpoint) :: entries =>
      if matchesPOD (h endpoint) podName podNameSpace doExactMatchForPodName
      then match ep with
           | None =>
               getEndpointByPOD_loop h podName podNameSpace doExactMatchForPodName
                 (Some endpoint) entries
           | Some _ => Err errMultipleEndpointsFound
           end
      else getEndpointByPOD_loop h podName podNameSpace doExactMatchForPodName ep entries
  end.

(** The entries on which the test of the loop body succeeds. *)
Definition hit (h : heap F) (podName podNameSpace : string)
    (doExactMatchForPodName : bool) (entry : string * ptr) : Prop :=
  matchesPOD (h entry.2) podName podNameSpace doExactMatchForPodName = true.

#[global] Instance hit_dec h podName podNameSpace doExactMatchForPodName entry :
  Decision (hit h podName podNameSpace doExactMatchForPodName entry).
Proof. unfold hit. apply _. Defined.

(** A [range] over a map visits every entry once, in an order the language
    leaves open: an order of visit is any arrangement of the entries. *)
Definition range_order (nw : network.t) (entries : list (string * ptr)) : Prop :=
  entries ≡ₚ map_to_list (network.Endpoints nw).

(** [getEndpointByPOD] when the range visits the entries in the given order. *)
Definition getEndpointByPOD_in (entries : list (string * ptr)) (h : heap F)
    (podName podNameSpace : string) (doExactMatchForPodName : bool) : result ptr :=
  getEndpointByPOD_loop h podName podNameSpace doExactMatchForPodName None entries.

(** [getEndpointByPOD] with one order of visit fixed; by
    [getEndpointByPOD_order] below the result is the same in every order. *)
Definition getEndpointByPOD (h : heap F) (nw : network.t)
    (podName podNameSpace : string) (doExactMatchForPodName : bool) : result ptr :=
  getEndpointByPOD_in (map_to_list (network.Endpoints nw)) h
    podName podNameSpace doExactMatchForPodName.

End Directory.

(** ** Creating, deleting and updating endpoints *)

Section Manager.
Context {F : Foreign}.

(** The platform implementations are in other files. Each is a function of
    the state it is given and of its arguments; what it does to the host is
    outside this model, and it leaves the directory and the tracked
    endpoint objects to its caller.

    [newEndpointImpl] returns a pointer to an endpoint it has built: the
    address, and the object found there on return.
    [updateEndpointImpl] returns a pointer of which only the target is
    read: the object found there on return. *)
Variable newEndpointImpl :
  heap F → network.t → EndpointInfo.t F → result (ptr * endpoint.t F).
Variable deleteEndpointImpl :
  heap F → network.t → ptr → option error.
Variable updateEndpointImpl :
  heap F → network.t → EndpointInfo.t F → EndpointInfo.t F → result (endpoint.t F).

Definition newEndpoint (h : heap F) (nw : network.t) (epInfo : EndpointInfo.t F)
  : heap F * network.t * result ptr :=
  match newEndpointImpl h nw epInfo with
  | Err err => (h, nw, Err err)
  | Ok (ep, built) =>
      let h := <[ep := built]> h in
      let nw := network.set_Endpoints
                  (<[endpoint.Id (h ep) := ep]> (network.Endpoints nw)) nw in
      (h, nw, Ok ep)
  end.

Definition deleteEndpoint (h : heap F) (nw : network.t) (endpointID : string)
  : heap F * network.t * option error :=
  match getEndpoint nw endpointID with
  | Err _ => (h, nw, None)
  | Ok ep =>
      match deleteEndpointImpl h nw ep with
      | Some err => (h, nw, Some err)
      | None =>
          (h, network.set_Endpoints (delete endpointID (network.Endpoints nw)) nw, None)
      end
  end.

(** The assignment after the platform call reads the directory again at
    the same identifier; the directory has not changed since the first
    read, so it finds the same pointer [stored]. *)
Definition updateEndpoint (h : heap F) (nw : network.t)
    (existingEpInfo targetEpInfo : EndpointInfo.t F)
  : heap F * network.t * option error :=
  match network.Endpoints nw !! EndpointInfo.EndpointID existingEpInfo with
  | None => (h, nw, Some errEndpointNotFound)
  | Some stored =>
      match updateEndpointImpl h nw existingEpInfo targetEpInfo with
      | Err err => (h, nw, Some err)
      | Ok ep =>
          (<[stored := endpoint.set_Routes (endpoint.Routes ep) (h stored)]> h, nw, None)
      end
  end.

End Manager.

(** ** Sample values *)

(** An instance of the foreign types that carries no information. *)
Definition noForeign : Foreign :=
  {| DNSInfo := unit; Policy := unit; NATInfo := unit; SubnetInfo := unit;
     Any := unit; NCResponse := unit |}.

Definition zeroIPNet : IPNet := {| IPNet_IP := []; IPNet_Mask := [] |}.

(** An endpoint with the given identifier, sandbox key, container
    identifier, pod name, pod namespace and NIC type; every other field has
    the zero value of its type. *)
Definition sampleEndpoint (id sandboxKey containerID podName podNameSpace nicType : string)
  : endpoint.t noForeign :=
  {| endpoint.Id := id; endpoint.HnsId := ""; endpoint.HNSNetworkID := "";
     endpoint.SandboxKey := sandboxKey; endpoint.IfName := "";
     endpoint.HostIfName := ""; endpoint.MacAddress := [];
     endpoint.InfraVnetIP := zeroIPNet; endpoint.LocalIP := "";
     endpoint.IPAddresses := []; endpoint.Gateways := [];
     endpoint.DNS := (tt : DNSInfo noForeign); endpoint.Routes := [];
     endpoint.VlanID := 0%Z; endpoint.EnableSnatOnHost := false;
     endpoint.EnableInfraVnet := false; endpoint.EnableMultitenancy := false;
     endpoint.AllowInboundFromHostToNC := false;
     endpoint.AllowInboundFromNCToHost := false;
     endpoint.NetworkContainerID := ""; endpoint.NetworkNameSpace := "";
     endpoint.ContainerID := containerID; endpoint.PODName := podName;
     endpoint.PODNameSpace := podNameSpace;
     endpoint.InfraVnetAddressSpace := ""; endpoint.NetNs := "";
     endpoint.SecondaryInterfaces := ∅; endpoint.NICType := nicType |}.

(** An [EndpointInfo] with the given identifier, platform handle, host
    interface name and routes; every other field has the zero value of its
    type. *)
Definition sampleEndpointInfo (endpointID hnsEndpointID hostIfName : string)
    (routes : list RouteInfo) : EndpointInfo.t noForeign :=
  {| EndpointInfo.EndpointID := endpointID; EndpointInfo.ContainerID := "";
     EndpointInfo.NetNsPath := ""; EndpointInfo.IfName := "";
     EndpointInfo.SandboxKey := ""; EndpointInfo.IfIndex := 0%Z;
     EndpointInfo.MacAddress := [];
     EndpointInfo.EndpointDNS := (tt : DNSInfo noForeign);
     EndpointInfo.IPAddresses := []; EndpointInfo.IPsToRouteViaHost := [];
     EndpointInfo.InfraVnetIP := zeroIPNet; EndpointInfo.Routes := routes;
     EndpointInfo.EndpointPolicies := []; EndpointInfo.NetworkPolicies := [];
     EndpointInfo.Gateways := []; EndpointInfo.EnableSnatOnHost := false;
     EndpointInfo.EnableInfraVnet := false;
     EndpointInfo.EnableMultiTenancy := false;
     EndpointInfo.EnableSnatForDns := false;
     EndpointInfo.AllowInboundFromHostToNC := false;
     EndpointInfo.AllowInboundFromNCToHost := false;
     EndpointInfo.NetworkContainerID := ""; EndpointInfo.PODName := "";
     EndpointInfo.PODNameSpace := ""; EndpointInfo.Data := ∅;
     EndpointInfo.InfraVnetAddressSpace := "";
     EndpointInfo.SkipHotAttachEp := false; EndpointInfo.IPV6Mode := "";
     EndpointInfo.VnetCidrs := ""; EndpointInfo.ServiceCidrs := "";
     EndpointInfo.NATInfo := []; EndpointInfo.NICType := "";
     EndpointInfo.SkipDefaultRoutes := false;
     EndpointInfo.HNSEndpointID := hnsEndpointID;
     EndpointInfo.HNSNetworkID := ""; EndpointInfo.HostIfName := hostIfName;
     EndpointInfo.MasterIfName := ""; EndpointInfo.AdapterName := "";
     EndpointInfo.NetworkID := ""; EndpointInfo.Mode := "";
     EndpointInfo.Subnets := []; EndpointInfo.BridgeName := "";
     EndpointInfo.NetNs := ""; EndpointInfo.Options := ∅;
     EndpointInfo.DisableHairpinOnHostInterface := false;
     EndpointInfo.IsIPv6Enabled := false;
     EndpointInfo.HostSubnetPrefix := ""; EndpointInfo.PnPID := "" |}.

(** A sample route. *)
Definition sampleRoute (devName : string) : RouteInfo :=
  {| Dst := zeroIPNet; Src := []; Gw := []; Protocol := 0%Z; DevName := devName;
     Scope := 0%Z; Priority := 0%Z; Table := 0%Z |}.

(** An endpoint that is not attached, and the same endpoint attached to
    the sandbox [sandbox-1]. *)
Definition unattached : endpoint.t noForeign :=
  sampleEndpoint "ep1" "" "c1" "web-7f9c8d-abcde" "default" "InfraNIC".

Definition attached : endpoint.t noForeign :=
  endpoint.set_SandboxKey "sandbox-1" unattached.

(** Members of a batch: two NICs of the container [c1], a NIC of the
    container [c2], and a NIC of [c1] whose NIC type is missing. *)
Definition nicA : endpoint.t noForeign :=
  sampleEndpoint "ep1" "" "c1" "" "" "InfraNIC".

Definition nicB : endpoint.t noForeign :=
  sampleEndpoint "ep2" "" "c1" "" "" "NodeNetworkInterfaceFrontendNIC".

Definition nicOther : endpoint.t noForeign :=
  sampleEndpoint "ep3" "" "c2" "" "" "InfraNIC".

Definition nicUntyped : endpoint.t noForeign :=
  sampleEndpoint "ep4" "" "c1" "" "" "".

(** A heap with three endpoints of the namespace [default]: two replicas
    of the deployment [web] at the addresses 1 and 2, and the pod [db-0] at
    the address 3. *)
Definition sampleHeap : heap noForeign :=
  <[1%positive := sampleEndpoint "ep1" "" "c1" "web-7f9c8d-abcde" "default" "InfraNIC"]>
    (<[2%positive := sampleEndpoint "ep2" "" "c2" "web-7f9c8d-fghij" "default" "InfraNIC"]>
       (<[3%positive := sampleEndpoint "ep3" "" "c3" "db-0" "default" "InfraNIC"]>
          (λ _, sampleEndpoint "" "" "" "" "" ""))).

(** A network that tracks the first replica only. *)
Definition oneReplica : network.t :=
  {| network.Id := "azure"; network.Endpoints := {[ "ep1" := 1%positive ]} |}.

(** A network that tracks the first replica and the database pod. *)
Definition replicaAndDb : network.t :=
  {| network.Id := "azure";
     network.Endpoints := <["ep1" := 1%positive]> {[ "ep3" := 3%positive ]} |}.

(** A network that tracks all three endpoints. *)
Definition twoReplicas : network.t :=
  {| network.Id := "azure";
     network.Endpoints :=
       <["ep1" := 1%positive]> (<["ep2" := 2%positive]> {[ "ep3" := 3%positive ]}) |}.

(** Sample platform implementations. Creation builds an endpoint at the
    address 4 and fails for the identifier [bad]; teardown fails for the
    endpoint at the address 3; reconciliation returns an endpoint that
    carries the target routes and fails for the target identifier [bad]. *)
Definition sampleNewEndpointImpl (h : heap noForeign) (nw : network.t)
    (epInfo : EndpointInfo.t noForeign) : result (ptr * endpoint.t noForeign) :=
  if String.eqb (EndpointInfo.EndpointID epInfo) "bad"
  then Err (errorsNew "platform failure")
  else Ok (4%positive,
           sampleEndpoint (EndpointInfo.EndpointID epInfo) "" "c4" "cache-0" "default" "InfraNIC").

Definition sampleDeleteEndpointImpl (h : heap noForeign) (nw : network.t) (ep : ptr)
  : option error :=
  if decide (ep = 3%positive) then Some (errorsNew "platform failure") else None.

Definition sampleUpdateEndpointImpl (h : heap noForeign) (nw : network.t)
    (existingEpInfo targetEpInfo : EndpointInfo.t noForeign) : result (endpoint.t noForeign) :=
  if String.eqb (EndpointInfo.EndpointID targetEpInfo) "bad"
  then Err (errorsNew "platform failure")
  else Ok (endpoint.set_Routes (EndpointInfo.Routes targetEpInfo)
             (sampleEndpoint (EndpointInfo.EndpointID existingEpInfo) "" "" "" "" "")).

(** ** Frame of an update, in the words of the specification *)

(** Two endpoint records agree on every field other than the route list. *)
Definition sameExceptRoutes {F : Foreign} (e e' : endpoint.t F) : Prop :=
  endpoint.Id e' = endpoint.Id e ∧
  endpoint.HnsId e' = endpoint.HnsId e ∧
  endpoint.HNSNetworkID e' = endpoint.HNSNetworkID e ∧
  endpoint.SandboxKey e' = endpoint.SandboxKey e ∧
  endpoint.IfName e' = endpoint.IfName e ∧
  endpoint.HostIfName e' = endpoint.HostIfName e ∧
  endpoint.MacAddress e' = endpoint.MacAddress e ∧
  endpoint.InfraVnetIP e' = endpoint.InfraVnetIP e ∧
  endpoint.LocalIP e' = endpoint.LocalIP e ∧
  endpoint.IPAddresses e' = endpoint.IPAddresses e ∧
  endpoint.Gateways e' = endpoint.Gateways e ∧
  endpoint.DNS e' = endpoint.DNS e ∧
  endpoint.VlanID e' = endpoint.VlanID e ∧
  endpoint.EnableSnatOnHost e' = endpoint.EnableSnatOnHost e ∧
  endpoint.EnableInfraVnet e' = endpoint.EnableInfraVnet e ∧
  endpoint.EnableMultitenancy e' = endpoint.EnableMultitenancy e ∧
  endpoint.AllowInboundFromHostToNC e' = endpoint.AllowInboundFromHostToNC e ∧
  endpoint.AllowInboundFromNCToHost e' = endpoint.AllowInboundFromNCToHost e ∧
  endpoint.NetworkContainerID e' = endpoint.NetworkContainerID e ∧
  endpoint.NetworkNameSpace e' = endpoint.NetworkNameSpace e ∧
  endpoint.ContainerID e' = endpoint.ContainerID e ∧
  endpoint.PODName e' = endpoint.PODName e ∧
  endpoint.PODNameSpace e' = endpoint.PODNameSpace e ∧
  endpoint.InfraVnetAddressSpace e' = endpoint.InfraVnetAddressSpace e ∧
  endpoint.NetNs e' = endpoint.NetNs e ∧
  endpoint.SecondaryInterfaces e' = endpoint.SecondaryInterfaces e ∧
  endpoint.NICType e' = endpoint.NICType e.

(** No endpoint object is tracked under two identifiers. *)
Definition distinctObjects (nw : network.t) : Prop :=
  ∀ k1 k2 p,
    network.Endpoints nw !! k1 = Some p → network.Endpoints nw !! k2 = Some p → k1 = k2.

(** The endpoint the directory holds under an identifier. *)
Definition tracked {F : Foreign} (h : heap F) (nw : network.t) (k : string)
  : option (endpoint.t F) :=
  h <$> network.Endpoints nw !! k.

(** ** The batch condition in the words of the specification *)

(** A member passes per-endpoint validation: its container identifier and
    its NIC type are both set. *)
Definition validMember {F : Foreign} (ep : endpoint.t F) : Prop :=
  endpoint.ContainerID ep ≠ "" ∧ endpoint.NICType ep ≠ "".

(** All members carry the same container identifier. *)
Definition sameContainer {F : Foreign} (eps : list (endpoint.t F)) : Prop :=
  ∀ e1 e2, e1 ∈ eps → e2 ∈ eps → endpoint.ContainerID e1 = endpoint.ContainerID e2.

(** ** Candidates of a lookup by pod, in the words of the specification *)

(** With [exactMatch] the stored pod name equals the query; without it the
    stored pod name, stripped of its trailing two hyphen-delimited segments,
    equals the query. In both cases the stored namespace equals the queried
    one. *)
Definition candidate {F : Foreign} (ep : endpoint.t F)
    (podName podNameSpace : string) (exactMatch : bool) : Prop :=
  (if exactMatch then endpoint.PODName ep = podName
   else GetPodNameWithoutSuffix (endpoint.PODName ep) = podName)
  ∧ endpoint.PODNameSpace ep = podNameSpace.

(** ** Further functions of the file *)

Definition newline : ascii := "010"%char.

(** The loop of [FormatSliceOfPointersToString], with the contents of the
    builder as an argument. A pointer of the slice is [None] when it is
    [nil]. The verb [%+v], whose output depends on the element type, is the
    argument [format]; the format string adds a space and a line feed. *)
Fixpoint FormatSliceOfPointersToString_loop {T : Type} (format : T → string)
    (builder : string) (slice : list (option T)) : string :=
  match slice with
  | [] => builder
  | ptr :: slice =>
      match ptr with
      | Some v =>
          FormatSliceOfPointersToString_loop format
            (builder +:+ (format v +:+ String " "%char (String newline EmptyString))) slice
      | None => FormatSliceOfPointersToString_loop format builder slice
      end
  end.

Definition FormatSliceOfPointersToString {T : Type} (format : T → string)
    (slice : list (option T)) : string :=
  FormatSliceOfPointersToString_loop format EmptyString slice.

Section Snapshot.
Context {F : Foreign}.

(** The struct literal of [getInfo] and the two [append]s that follow it.
    The fields the literal does not name have the zero value of their type:
    the empty string, [false], the empty slice, the empty map. *)
Definition getInfo_literal (ep : endpoint.t F) : EndpointInfo.t F :=
  {| EndpointInfo.EndpointID := endpoint.Id ep;
     EndpointInfo.ContainerID := endpoint.ContainerID ep;
     EndpointInfo.NetNsPath := endpoint.NetworkNameSpace ep;
     EndpointInfo.IfName := endpoint.IfName ep;
     EndpointInfo.SandboxKey := endpoint.SandboxKey ep;
     EndpointInfo.IfIndex := 0%Z;
     EndpointInfo.MacAddress := endpoint.MacAddress ep;
     EndpointInfo.EndpointDNS := endpoint.DNS ep;
     EndpointInfo.IPAddresses := endpoint.IPAddresses ep;
     EndpointInfo.IPsToRouteViaHost := [];
     EndpointInfo.InfraVnetIP := endpoint.InfraVnetIP ep;
     EndpointInfo.Routes := [] ++ endpoint.Routes ep;
     EndpointInfo.EndpointPolicies := [];
     EndpointInfo.NetworkPolicies := [];
     EndpointInfo.Gateways := [] ++ endpoint.Gateways ep;
     EndpointInfo.EnableSnatOnHost := endpoint.EnableSnatOnHost ep;
     EndpointInfo.EnableInfraVnet := endpoint.EnableInfraVnet ep;
     EndpointInfo.EnableMultiTenancy := endpoint.EnableMultitenancy ep;
     EndpointInfo.EnableSnatForDns := false;
     EndpointInfo.AllowInboundFromHostToNC := endpoint.AllowInboundFromHostToNC ep;
     EndpointInfo.AllowInboundFromNCToHost := endpoint.AllowInboundFromNCToHost ep;
     EndpointInfo.NetworkContainerID := endpoint.NetworkContainerID ep;
     EndpointInfo.PODName := endpoint.PODName ep;
     EndpointInfo.PODNameSpace := endpoint.PODNameSpace ep;
     EndpointInfo.Data := ∅;
     EndpointInfo.InfraVnetAddressSpace := "";
     EndpointInfo.SkipHotAttachEp := false;
     EndpointInfo.IPV6Mode := "";
     EndpointInfo.VnetCidrs := "";
     EndpointInfo.ServiceCidrs := "";
     EndpointInfo.NATInfo := [];
     EndpointInfo.NICType := endpoint.NICType ep;
     EndpointInfo.SkipDefaultRoutes := false;
     EndpointInfo.HNSEndpointID := endpoint.HnsId ep;
     EndpointInfo.HNSNetworkID := "";
     EndpointInfo.HostIfName := endpoint.HostIfName ep;
     EndpointInfo.MasterIfName := "";
     EndpointInfo.AdapterName := "";
     EndpointInfo.NetworkID := "";
     EndpointInfo.Mode := "";
     EndpointInfo.Subnets := [];
     EndpointInfo.BridgeName := "";
     EndpointInfo.NetNs := "";
     EndpointInfo.Options := ∅;
     EndpointInfo.DisableHairpinOnHostInterface := false;
     EndpointInfo.IsIPv6Enabled := false;
     EndpointInfo.HostSubnetPrefix := "";
     EndpointInfo.PnPID := "" |}.

(** [getInfoImpl] is the platform implementation, in another file: it is
    given the endpoint and the snapshot built so far, and fills in the
    snapshot. *)
Variable getInfoImpl : endpoint.t F → EndpointInfo.t F → EndpointInfo.t F.

Definition getInfo (ep : endpoint.t F) : EndpointInfo.t F :=
  getInfoImpl ep (getInfo_literal ep).

End Snapshot.

Section PointerCalls.
Context {F : Foreign}.

(** The call [ep.attach(sandboxKey)] for a pointer [ep]: the method runs
    on the object found at [ep], which is then as the method has left it. *)
Definition attachAt (h : heap F) (ep : ptr) (sandboxKey : string) : heap F * option error :=
  let (obj, err) := attach (h ep) sandboxKey in (<[ep := obj]> h, err).

(** The call [ep.detach()] for a pointer [ep]. *)
Definition detachAt (h : heap F) (ep : ptr) : heap F * option error :=
  let (obj, err) := detach (h ep) in (<[ep := obj]> h, err).

(** Every entry of the directory is stored under the identifier of the
    object it points to. *)
Definition keyedById (h : heap F) (nw : network.t) : Prop :=
  ∀ k p, network.Endpoints nw !! k = Some p → endpoint.Id (h p) = k.

End PointerCalls.

(** A platform enrichment that leaves the snapshot as it is. *)
Definition sampleGetInfoImpl (ep : endpoint.t noForeign) (info : EndpointInfo.t noForeign)
  : EndpointInfo.t noForeign := info.

(** A teardown that always fails. *)
Definition failingDeleteEndpointImpl (h : heap noForeign) (nw : network.t) (ep : ptr)
  : option error :=
  Some (errorsNew "platform failure").

(** The state after the creation of the endpoint [ep4] on [twoReplicas],
    and the state after the deletion of [ep1] from [twoReplicas]. *)
Definition createdEp4 : heap noForeign * network.t * result ptr :=
  newEndpoint sampleNewEndpointImpl sampleHeap twoReplicas (sampleEndpointInfo "ep4" "" "" []).

Definition deletedEp1 : heap noForeign * network.t * option error :=
  deleteEndpoint sampleDeleteEndpointImpl sampleHeap twoReplicas "ep1".

(** The endpoint the sample platform builds for the identifier [ep4]. *)
Definition builtEp4 : endpoint.t noForeign :=
  sampleEndpoint "ep4" "" "c4" "cache-0" "default" "InfraNIC".

(** ** Stripping, in the words of the specification *)

(** The pod name with its trailing two hyphen-delimited segments stripped,
    read word for word: the segments between the hyphens without the last
    two of them, joined with hyphens again. A name of two segments or fewer
    has no segment left. *)
Definition stripLastTwoSegments (podName : string) : string :=
  let segments := Split podName hyphen in
  Join (take (length segments - 2) segments) "-".

(** The stored pod name, stripped where it has three segments or more and
    taken as it is where it has two or fewer, is the query: either the
    stored name has at most one hyphen and is the query, or it is the query
    followed by a hyphen, a segment, a hyphen and a segment. *)
Definition strippedTo (stored query : string) : Prop :=
  (hyphens stored ≤ 1 ∧ stored = query) ∨
  (∃ a b, hyphens a = 0 ∧ hyphens b = 0 ∧
          stored = query +:+ "-" +:+ a +:+ "-" +:+ b).

(** The candidates of a lookup by pod, with the stripping spelled out. *)
Definition podCandidate {F : Foreign} (ep : endpoint.t F)
    (podName podNameSpace : string) (exactMatch : bool) : Prop :=
  (if exactMatch then endpoint.PODName ep = podName
   else strippedTo (endpoint.PODName ep) podName)
  ∧ endpoint.PODNameSpace ep = podNameSpace.

(** A network that tracks the database pod only. *)
Definition dbOnly : network.t :=
  {| network.Id := "azure"; network.Endpoints := {[ "ep3" := 3%positive ]} |}.

(** * Properties *)

(** ** Splitting and joining on hyphens *)

Lemma Split_nonempty (s : string) (sep : ascii) : Split s sep ≠ [].
Proof.
  destruct s as [|c s]; simpl; [discriminate|].
  destruct (Ascii.eqb c sep); [discriminate|].
  destruct (Split s sep); discriminate.
Qed.

Lemma Split_cons_other (c : ascii) (s : string) (sep : ascii) :
  Ascii.eqb c sep = false →
  ∃ seg segs, Split s sep = seg :: segs ∧ Split (String c s) sep = String c seg :: segs.
Proof.
  intros Hc. simpl. rewrite Hc.
  destruct (Split s sep) as [|seg segs] eqn:E.
  - by destruct (Split_nonempty s sep).
  - by exists seg, segs.
Qed.

Lemma Split_length (s : string) :
  length (Split s hyphen) = S (hyphens s).
Proof.
  induction s as [|c s IH]; [reflexivity|].
  cbn [hyphens]. destruct (Ascii.eqb c hyphen) eqn:Hc.
  - simpl. rewrite Hc. simpl. by rewrite IH.
  - destruct (Split_cons_other c s hyphen Hc) as (seg & segs & E & ->).
    rewrite E in IH. simpl in *. lia.
Qed.

Lemma Split_app_hyphen (x y : string) :
  Split (x +:+ String hyphen y) hyphen = Split x hyphen ++ Split y hyphen.
Proof.
  induction x as [|c x IH]; [reflexivity|].
  cbn [String.append]. destruct (Ascii.eqb c hyphen) eqn:Hc.
  - simpl. rewrite Hc. by rewrite IH.
  - destruct (Split_cons_other c x hyphen Hc) as (seg & segs & E & ->).
    simpl. rewrite Hc, IH, E. reflexivity.
Qed.

Lemma Split_hyphen_free (s : string) :
  hyphens s = 0 → Split s hyphen = [s].
Proof.
  induction s as [|c s IH]; [reflexivity|].
  cbn [hyphens]. destruct (Ascii.eqb c hyphen) eqn:Hc; [discriminate|].
  intros H. simpl. rewrite Hc, IH by done. reflexivity.
Qed.

Lemma Split_segments_hyphen_free (s seg : string) :
  seg ∈ Split s hyphen → hyphens seg = 0.
Proof.
  revert seg. induction s as [|c s IH]; intros seg.
  - simpl. intros ->%list_elem_of_singleton. reflexivity.
  - destruct (Ascii.eqb c hyphen) eqn:Hc.
    + simpl. rewrite Hc. intros [->|H]%elem_of_cons; [reflexivity|by apply IH].
    + destruct (Split_cons_other c s hyphen Hc) as (seg0 & segs & E & ->).
      rewrite E in IH.
      intros [->|H]%elem_of_cons.
      * cbn [hyphens]. rewrite Hc. apply IH. left.
      * apply IH. by right.
Qed.

Lemma append_assoc (x y z : string) : (x +:+ y) +:+ z = x +:+ y +:+ z.
Proof.
  induction x as [|c x IH]; [reflexivity|].
  change (String c ((x +:+ y) +:+ z) = String c (x +:+ y +:+ z)). by f_equal.
Qed.

Lemma Join_cons (e : string) (rest : list string) (sep : string) :
  rest ≠ [] → Join (e :: rest) sep = e +:+ sep +:+ Join rest sep.
Proof. by destruct rest. Qed.

Lemma Join_app (pre post : list string) (sep : string) :
  pre ≠ [] → post ≠ [] →
  Join (pre ++ post) sep = Join pre sep +:+ sep +:+ Join post sep.
Proof.
  intros Hpre Hpost. induction pre as [|e pre IH]; [done|].
  destruct pre as [|e' pre].
  - simpl. by destruct post.
  - change ((e :: e' :: pre) ++ post) with (e :: (e' :: pre) ++ post).
    rewrite !Join_cons by done. rewrite IH by done.
    by rewrite !append_assoc.
Qed.

Lemma Join_Split (s : string) : Join (Split s hyphen) "-" = s.
Proof.
  induction s as [|c s IH]; [reflexivity|].
  destruct (Ascii.eqb c hyphen) eqn:Hc.
  - simpl Split. rewrite Hc. rewrite Join_cons by apply Split_nonempty.
    rewrite IH. simpl. by apply Ascii.eqb_eq in Hc as ->.
  - destruct (Split_cons_other c s hyphen Hc) as (seg & segs & E & ->).
    rewrite E in IH. destruct segs as [|seg' segs].
    + simpl in *. by rewrite IH.
    + rewrite Join_cons in IH |- * by done.
      change (String c (seg +:+ "-" +:+ Join (seg' :: segs) "-") = String c s).
      by rewrite IH.
Qed.

Lemma Split_Join (segs : list string) :
  segs ≠ [] → (∀ seg, seg ∈ segs → hyphens seg = 0) →
  Split (Join segs "-") hyphen = segs.
Proof.
  intros Hne Hfree. induction segs as [|e segs IH]; [done|].
  destruct segs as [|e' segs].
  - simpl. apply Split_hyphen_free, Hfree. left.
  - rewrite Join_cons by done.
    change (e +:+ "-" +:+ Join (e' :: segs) "-")
      with (e +:+ String hyphen (Join (e' :: segs) "-")).
    rewrite Split_app_hyphen, IH; [|done|].
    + rewrite Split_hyphen_free; [done|]. apply Hfree. left.
    + intros seg H. apply Hfree. by right.
Qed.

(** With three segments or more the name is [base-a-b], [a] and [b] free
    of hyphens, and the result is [base]. *)
Lemma GetPodNameWithoutSuffix_strip (podName : string) :
  2 ≤ hyphens podName →
  ∃ base a b,
    hyphens a = 0 ∧ hyphens b = 0 ∧
    podName = base +:+ "-" +:+ a +:+ "-" +:+ b ∧
    Split podName hyphen = Split base hyphen ++ [a; b] ∧
    GetPodNameWithoutSuffix podName = base.
Proof.
  intros Hlen. pose proof (Split_length podName) as Hn.
  unfold GetPodNameWithoutSuffix. cbv zeta.
  set (nameSplit := Split podName hyphen) in *.
  destruct (Nat.ltb_spec 2 (length nameSplit)) as [_|?]; [|lia].
  set (pre := take (length nameSplit - 2) nameSplit).
  assert (Hpre : length pre = length nameSplit - 2)
    by (unfold pre; rewrite length_take; lia).
  destruct (drop (length nameSplit - 2) nameSplit) as [|a [|b [|? ?]]] eqn:Hdrop;
    try (apply (f_equal length) in Hdrop; rewrite length_drop in Hdrop;
         simpl in Hdrop; lia).
  assert (Hsplit : nameSplit = pre ++ [a; b])
    by (rewrite <- Hdrop; unfold pre; by rewrite take_drop).
  assert (Hfree : ∀ seg, seg ∈ nameSplit → hyphens seg = 0)
    by (intros seg; apply Split_segments_hyphen_free).
  assert (Hpre_ne : pre ≠ []) by (intros E; rewrite E in Hpre; simpl in Hpre; lia).
  assert (Hbase : Split (Join pre "-") hyphen = pre).
  { apply Split_Join; [done|]. intros seg H. apply Hfree.
    rewrite Hsplit. apply elem_of_app. by left. }
  exists (Join pre "-"), a, b. split_and!.
  - apply Hfree. rewrite Hsplit. set_solver.
  - apply Hfree. rewrite Hsplit. set_solver.
  - rewrite <- (Join_Split podName) at 1. fold nameSplit. rewrite Hsplit.
    by rewrite Join_app.
  - by rewrite Hbase.
  - reflexivity.
Qed.

(** Conversely, any way of writing the name as [base-a-b] with [a] and [b]
    free of hyphens is the one the function strips. *)
Lemma GetPodNameWithoutSuffix_unique (base a b : string) :
  hyphens a = 0 → hyphens b = 0 →
  GetPodNameWithoutSuffix (base +:+ "-" +:+ a +:+ "-" +:+ b) = base.
Proof.
  intros Ha Hb. unfold GetPodNameWithoutSuffix. cbv zeta.
  change (base +:+ "-" +:+ a +:+ "-" +:+ b)
    with (base +:+ String hyphen (a +:+ String hyphen b)).
  rewrite !Split_app_hyphen, (Split_hyphen_free a), (Split_hyphen_free b) by done.
  rewrite !length_app. cbn [length]. pose proof (Split_length base).
  destruct (Nat.ltb_spec 2 (length (Split base hyphen) + (1 + 1))) as [_|?]; [|lia].
  replace (length (Split base hyphen) + (1 + 1) - 2) with (length (Split base hyphen)) by lia.
  rewrite take_app_length. apply Join_Split.
Qed.

(** C10: a pod name with at most one hyphen, that is with two segments or
    fewer, is returned unchanged; a pod name with three segments or more is
    returned without its last two segments, the remaining ones joined with
    hyphens again. *)
Theorem GetPodNameWithoutSuffix_spec (podName : string) :
  length (Split podName hyphen) = S (hyphens podName) ∧
  (length (Split podName hyphen) ≤ 2 → GetPodNameWithoutSuffix podName = podName) ∧
  (3 ≤ length (Split podName hyphen) →
     GetPodNameWithoutSuffix podName =
       Join (take (length (Split podName hyphen) - 2) (Split podName hyphen)) "-" ∧
     ∃ base a b,
       hyphens a = 0 ∧ hyphens b = 0 ∧
       podName = base +:+ "-" +:+ a +:+ "-" +:+ b ∧
       Split podName hyphen = Split base hyphen ++ [a; b] ∧
       GetPodNameWithoutSuffix podName = base).
Proof.
  split_and!.
  - apply Split_length.
  - intros H. unfold GetPodNameWithoutSuffix. cbv zeta.
    by destruct (Nat.ltb_spec 2 (length (Split podName hyphen))); [lia|].
  - intros H. split.
    + unfold GetPodNameWithoutSuffix. cbv zeta.
      by destruct (Nat.ltb_spec 2 (length (Split podName hyphen))); [|lia].
    + apply GetPodNameWithoutSuffix_strip. rewrite Split_length in H. lia.
Qed.

Lemma GetPodNameWithoutSuffix_spec_witness :
  GetPodNameWithoutSuffix "web-abcde" = "web-abcde" ∧
  ∃ base a b,
    hyphens a = 0 ∧ hyphens b = 0 ∧
    "web-7f9c8d-abcde" = base +:+ "-" +:+ a +:+ "-" +:+ b ∧
    Split "web-7f9c8d-abcde" hyphen = Split base hyphen ++ [a; b] ∧
    GetPodNameWithoutSuffix "web-7f9c8d-abcde" = base.
Proof.
  split.
  - apply (proj1 (proj2 (GetPodNameWithoutSuffix_spec "web-abcde"))).
    vm_compute. lia.
  - apply (proj2 (proj2 (GetPodNameWithoutSuffix_spec "web-7f9c8d-abcde"))).
    vm_compute. lia.
Defined.

Example Split_example : Split "a--b-" hyphen = ["a"; ""; "b"; ""].
Proof. reflexivity. Qed.

Example GetPodNameWithoutSuffix_examples :
  GetPodNameWithoutSuffix "web-7f9c8d-abcde" = "web" ∧
  GetPodNameWithoutSuffix "my-app-7f9c8d-abcde" = "my-app" ∧
  GetPodNameWithoutSuffix "web-abcde" = "web-abcde" ∧
  GetPodNameWithoutSuffix "web" = "web" ∧
  GetPodNameWithoutSuffix "" = "" ∧
  GetPodNameWithoutSuffix "--" = "".
Proof. repeat split. Qed.

(** ** Snapshots *)

Lemma eqb_empty (s : string) : String.eqb s "" = true ↔ s = "".
Proof. apply String.eqb_eq. Qed.

Lemma eqb_nonempty (s : string) : String.eqb s "" = false ↔ s ≠ "".
Proof. apply String.eqb_neq. Qed.

(** C9: a snapshot is reported incomplete exactly when both its platform
    handle and its host interface name are the empty string; in every other
    case the answer is false. *)
Theorem IsEndpointStateIncomplete_spec (F : Foreign) (epInfo : EndpointInfo.t F) :
  (IsEndpointStateIncomplete epInfo = true ↔
     EndpointInfo.HNSEndpointID epInfo = "" ∧ EndpointInfo.HostIfName epInfo = "") ∧
  (IsEndpointStateIncomplete epInfo = false ↔
     EndpointInfo.HNSEndpointID epInfo ≠ "" ∨ EndpointInfo.HostIfName epInfo ≠ "").
Proof.
  unfold IsEndpointStateIncomplete.
  destruct (String.eqb_spec (EndpointInfo.HNSEndpointID epInfo) "") as [Hh|Hh];
    destruct (String.eqb_spec (EndpointInfo.HostIfName epInfo) "") as [Hi|Hi];
    cbn [andb]; intuition congruence.
Qed.

Example IsEndpointStateIncomplete_examples :
  IsEndpointStateIncomplete (sampleEndpointInfo "ep" "" "" []) = true ∧
  IsEndpointStateIncomplete (sampleEndpointInfo "ep" "hns-1" "" []) = false ∧
  IsEndpointStateIncomplete (sampleEndpointInfo "ep" "" "veth0" []) = false ∧
  IsEndpointStateIncomplete (sampleEndpointInfo "ep" "hns-1" "veth0" []) = false.
Proof. repeat split. Qed.

(** ** Attaching and detaching *)

Lemma attach_in_use (F : Foreign) (ep : endpoint.t F) (sandboxKey : string) :
  endpoint.SandboxKey ep ≠ "" → attach ep sandboxKey = (ep, Some errEndpointInUse).
Proof. intros H%eqb_nonempty. unfold attach. by rewrite H. Qed.

Lemma attach_free (F : Foreign) (ep : endpoint.t F) (sandboxKey : string) :
  endpoint.SandboxKey ep = "" →
  attach ep sandboxKey = (endpoint.set_SandboxKey sandboxKey ep, None).
Proof. intros H%eqb_empty. unfold attach. by rewrite H. Qed.

Lemma detach_not_in_use (F : Foreign) (ep : endpoint.t F) :
  endpoint.SandboxKey ep = "" → detach ep = (ep, Some errEndpointNotInUse).
Proof. intros H%eqb_empty. unfold detach. by rewrite H. Qed.

Lemma detach_in_use (F : Foreign) (ep : endpoint.t F) :
  endpoint.SandboxKey ep ≠ "" → detach ep = (endpoint.set_SandboxKey "" ep, None).
Proof. intros H%eqb_nonempty. unfold detach. by rewrite H. Qed.

(** C7, as the code has it: [attach] fails with [AlreadyAttached] exactly
    when the sandbox key is set, and leaves the endpoint as it is; otherwise
    it stores its argument and succeeds. [detach] fails with [NotAttached]
    exactly when the sandbox key is empty, and leaves the endpoint as it is;
    otherwise it clears the key and succeeds. An attach with a key that is
    not empty makes the attach that follows fail, and the second of two
    detaches fails. *)
Theorem attach_detach_spec (F : Foreign) (ep : endpoint.t F) (sandboxKey : string) :
  (endpoint.SandboxKey ep ≠ "" → attach ep sandboxKey = (ep, Some AlreadyAttached)) ∧
  (endpoint.SandboxKey ep = "" →
     attach ep sandboxKey = (endpoint.set_SandboxKey sandboxKey ep, None)) ∧
  (endpoint.SandboxKey ep = "" → detach ep = (ep, Some NotAttached)) ∧
  (endpoint.SandboxKey ep ≠ "" → detach ep = (endpoint.set_SandboxKey "" ep, None)) ∧
  (sandboxKey ≠ "" →
     ∀ sandboxKey', (attach (attach ep sandboxKey).1 sandboxKey').2 = Some AlreadyAttached) ∧
  (detach (detach ep).1).2 = Some NotAttached.
Proof.
  split_and!.
  - apply attach_in_use.
  - apply attach_free.
  - apply detach_not_in_use.
  - apply detach_in_use.
  - intros Hkey key'.
    destruct (decide (endpoint.SandboxKey ep = "")) as [He|He].
    + rewrite (attach_free _ _ _ He). cbn [fst]. by rewrite attach_in_use.
    + rewrite (attach_in_use _ _ _ He). cbn [fst]. by rewrite attach_in_use.
  - destruct (decide (endpoint.SandboxKey ep = "")) as [He|He].
    + rewrite (detach_not_in_use _ _ He). cbn [fst]. by rewrite detach_not_in_use.
    + rewrite (detach_in_use _ _ He). cbn [fst]. by rewrite detach_not_in_use.
Qed.

Lemma attach_detach_spec_witness :
  attach unattached "sandbox-1" = (attached, None) ∧
  attach attached "sandbox-2" = (attached, Some AlreadyAttached) ∧
  detach attached = (unattached, None) ∧
  detach unattached = (unattached, Some NotAttached) ∧
  (attach (attach unattached "sandbox-1").1 "sandbox-2").2 = Some AlreadyAttached.
Proof.
  pose proof (attach_detach_spec noForeign unattached "sandbox-1")
    as (_ & Hfree & Hnot & _ & Htwice & _).
  pose proof (attach_detach_spec noForeign attached "sandbox-2")
    as (Hused & _ & _ & Hclear & _ & _).
  split_and!.
  - apply Hfree. reflexivity.
  - apply Hused. discriminate.
  - apply Hclear. discriminate.
  - apply Hnot. reflexivity.
  - apply Htwice. discriminate.
Defined.

(** C7 as stated does not hold: an attach with the empty key succeeds and
    leaves the endpoint unattached, so the attach that follows it succeeds
    too. *)
Lemma attach_twice_counterexample :
  (attach unattached "").2 = None ∧
  (attach (attach unattached "").1 "sandbox-1").2 = None ∧
  ¬ (∀ sandboxKey sandboxKey',
       (attach (attach unattached sandboxKey).1 sandboxKey').2 = Some AlreadyAttached).
Proof.
  split_and!; [reflexivity..|].
  intros H. specialize (H "" "sandbox-1"). discriminate H.
Qed.

(** ** Validation *)

Section Validation.
Context {F : Foreign}.
Implicit Types (ep : endpoint.t F) (eps : list (endpoint.t F)) (c : string).

Lemma validateEndpoint_valid ep :
  validateEndpoint ep = None ↔ validMember ep.
Proof.
  unfold validateEndpoint, validMember.
  destruct (String.eqb_spec (endpoint.ContainerID ep) "");
    destruct (String.eqb_spec (endpoint.NICType ep) "");
    cbn [orb]; intuition congruence.
Qed.

Lemma validateEndpoint_invalid ep :
  endpoint.ContainerID ep = "" ∨ endpoint.NICType ep = "" →
  validateEndpoint ep
  = Some (errorsNew "endpoint struct must contain a container id and nic type").
Proof.
  unfold validateEndpoint.
  destruct (String.eqb_spec (endpoint.ContainerID ep) "");
    destruct (String.eqb_spec (endpoint.NICType ep) "");
    cbn [orb]; intuition congruence.
Qed.

Lemma validateEndpoints_loop_invalid (containerIDs : gset string) ep eps :
  endpoint.ContainerID ep = "" ∨ endpoint.NICType ep = "" →
  validateEndpoints_loop containerIDs (ep :: eps) = Some InvalidEndpoint.
Proof.
  intros H. cbn [validateEndpoints_loop]. by rewrite (validateEndpoint_invalid _ H).
Qed.

(** The first member that is accepted makes the set a singleton. *)
Lemma validateEndpoints_loop_first ep eps :
  validMember ep →
  validateEndpoints_loop ∅ (ep :: eps)
  = validateEndpoints_loop {[ endpoint.ContainerID ep ]} eps.
Proof.
  intros H%validateEndpoint_valid. cbn [validateEndpoints_loop]. rewrite H.
  rewrite (right_id_L ∅ (∪)), size_singleton. reflexivity.
Qed.

(** With one identifier in the set, a further member is accepted exactly
    when it carries that identifier. *)
Lemma validateEndpoints_loop_next c ep eps :
  validMember ep →
  validateEndpoints_loop {[ c ]} (ep :: eps)
  = if decide (endpoint.ContainerID ep = c)
    then validateEndpoints_loop {[ c ]} eps
    else Some MultipleContainerIDs.
Proof.
  intros H%validateEndpoint_valid. cbn [validateEndpoints_loop]. rewrite H.
  destruct (decide (endpoint.ContainerID ep = c)) as [->|Hne].
  - rewrite (idemp_L (∪)), size_singleton. reflexivity.
  - rewrite size_union, !size_singleton by set_solver. reflexivity.
Qed.

Lemma validateEndpoints_loop_prefix c pre eps :
  (∀ e, e ∈ pre → validMember e ∧ endpoint.ContainerID e = c) →
  validateEndpoints_loop {[ c ]} (pre ++ eps) = validateEndpoints_loop {[ c ]} eps.
Proof.
  induction pre as [|e pre IH]; intros Hpre; [reflexivity|].
  destruct (Hpre e) as [Hv Hc]; [left|].
  change ((e :: pre) ++ eps) with (e :: pre ++ eps).
  rewrite validateEndpoints_loop_next, decide_True by done.
  apply IH. intros e' He'. apply Hpre. by right.
Qed.

Lemma validateEndpoints_loop_None c eps :
  validateEndpoints_loop {[ c ]} eps = None →
  ∀ e, e ∈ eps → validMember e ∧ endpoint.ContainerID e = c.
Proof.
  induction eps as [|ep eps IH]; intros Hloop e He.
  - by apply elem_of_nil in He.
  - assert (Hv : validMember ep).
    { apply validateEndpoint_valid. cbn [validateEndpoints_loop] in Hloop.
      by destruct (validateEndpoint ep). }
    rewrite validateEndpoints_loop_next in Hloop by done.
    destruct (decide (endpoint.ContainerID ep = c)) as [Hc|Hc]; [|done].
    apply elem_of_cons in He as [->|He]; [done|by apply IH].
Qed.

(** C8, as the code has it: the batch is accepted exactly when every
    member passes per-endpoint validation and all members share one
    container identifier. Otherwise the members are checked in order and the
    first one that breaks the condition decides the error:
    [InvalidEndpoint] if its container identifier or its NIC type is empty,
    [MultipleContainerIDs] if it is valid and its container identifier
    differs from the one of the members before it. *)
Theorem validateEndpoints_spec eps :
  (validateEndpoints eps = None ↔ (∀ ep, ep ∈ eps → validMember ep) ∧ sameContainer eps) ∧
  (∀ pre ep post,
     eps = pre ++ ep :: post →
     (∀ e, e ∈ pre → validMember e) → sameContainer pre →
     (endpoint.ContainerID ep = "" ∨ endpoint.NICType ep = "" →
        validateEndpoints eps = Some InvalidEndpoint) ∧
     (validMember ep → ¬ sameContainer (pre ++ [ep]) →
        validateEndpoints eps = Some MultipleContainerIDs)).
Proof.
  unfold validateEndpoints. split.
  - destruct eps as [|e0 eps].
    { split; [|done]. intros _. split; [by intros ? ?%elem_of_nil|].
      by intros ? ? ?%elem_of_nil. }
    split.
    + intros Hloop.
      assert (Hv : validMember e0).
      { apply validateEndpoint_valid. cbn [validateEndpoints_loop] in Hloop.
        by destruct (validateEndpoint e0). }
      rewrite validateEndpoints_loop_first in Hloop by done.
      pose proof (validateEndpoints_loop_None _ _ Hloop) as Hall.
      assert (Hall' : ∀ e, e ∈ e0 :: eps →
                validMember e ∧ endpoint.ContainerID e = endpoint.ContainerID e0).
      { intros e [->|He]%elem_of_cons; [done|by apply Hall]. }
      split; [intros e He; by apply Hall'|].
      intros e1 e2 H1 H2.
      destruct (Hall' _ H1) as [_ ->]. by destruct (Hall' _ H2) as [_ ->].
    + intros [Hvalid Hsame].
      rewrite validateEndpoints_loop_first by (apply Hvalid; left).
      rewrite <- (app_nil_r eps), validateEndpoints_loop_prefix; [done|].
      intros e He. split; [apply Hvalid; by right|].
      apply Hsame; [by right|left].
  - intros pre ep post -> Hvalid Hsame.
    destruct pre as [|e0 pre].
    + split; [apply validateEndpoints_loop_invalid|].
      intros _ []. by intros e1 e2 ->%list_elem_of_singleton ->%list_elem_of_singleton.
    + change ((e0 :: pre) ++ ep :: post) with (e0 :: pre ++ ep :: post).
      rewrite validateEndpoints_loop_first by (apply Hvalid; left).
      rewrite validateEndpoints_loop_prefix.
      2:{ intros e He. split; [apply Hvalid; by right|].
          apply Hsame; [by right|left]. }
      split; [apply validateEndpoints_loop_invalid|].
      intros Hv Hdiff. rewrite validateEndpoints_loop_next by done.
      destruct (decide (endpoint.ContainerID ep = endpoint.ContainerID e0)) as [Hc|Hc];
        [|done].
      destruct Hdiff.
      assert (Hall : ∀ e, e ∈ (e0 :: pre) ++ [ep] →
                endpoint.ContainerID e = endpoint.ContainerID e0).
      { intros e [He| ->%list_elem_of_singleton]%elem_of_app; [|done].
        apply Hsame; [done|left]. }
      intros e1 e2 H1 H2. by rewrite (Hall _ H1), (Hall _ H2).
Qed.

End Validation.

Lemma validateEndpoints_spec_witness :
  validateEndpoints [nicA; nicB] = None ∧
  validateEndpoints [nicA; nicB; nicUntyped; nicOther] = Some InvalidEndpoint ∧
  validateEndpoints [nicA; nicB; nicOther; nicUntyped] = Some MultipleContainerIDs.
Proof.
  assert (Hvalid : ∀ e, e ∈ [nicA; nicB] → validMember e).
  { intros e He. repeat (apply elem_of_cons in He as [->|He]); try done.
    by apply elem_of_nil in He. }
  assert (Hsame : sameContainer [nicA; nicB]).
  { intros e1 e2 H1 H2.
    repeat (apply elem_of_cons in H1 as [->|H1]);
      repeat (apply elem_of_cons in H2 as [->|H2]);
      try reflexivity; by (apply elem_of_nil in H1 || apply elem_of_nil in H2). }
  split_and!.
  - apply (proj1 (validateEndpoints_spec [nicA; nicB])). by split.
  - apply (proj2 (validateEndpoints_spec [nicA; nicB; nicUntyped; nicOther])
             [nicA; nicB] nicUntyped [nicOther]); try done.
    by right.
  - apply (proj2 (validateEndpoints_spec [nicA; nicB; nicOther; nicUntyped])
             [nicA; nicB] nicOther [nicUntyped]); try done.
    intros H. specialize (H nicA nicOther). discriminate H; set_solver.
Defined.

(** C8 as stated does not hold: a member with an empty NIC type does not
    make the batch fail with [InvalidEndpoint] when two members before it
    differ in their container identifiers. *)
Lemma validateEndpoints_counterexample :
  (nicUntyped ∈ [nicA; nicOther; nicUntyped] ∧ endpoint.NICType nicUntyped = "") ∧
  validateEndpoints [nicA; nicOther; nicUntyped] = Some MultipleContainerIDs ∧
  ¬ (∀ eps : list (endpoint.t noForeign),
       (∃ ep, ep ∈ eps ∧ (endpoint.ContainerID ep = "" ∨ endpoint.NICType ep = "")) →
       validateEndpoints eps = Some InvalidEndpoint).
Proof.
  split; [|split].
  - split; [set_solver|reflexivity].
  - by vm_compute.
  - intros H. specialize (H [nicA; nicOther; nicUntyped]).
    assert (Hres : validateEndpoints [nicA; nicOther; nicUntyped]
                   = Some MultipleContainerIDs) by by vm_compute.
    rewrite Hres in H. discriminate H.
    exists nicUntyped. split; [set_solver|by right].
Qed.

(** ** Lookup by pod *)

Section Lookup.
Context {F : Foreign}.
Implicit Types (h : heap F) (nw : network.t) (entries : list (string * ptr)).

Lemma matchesPOD_candidate (ep : endpoint.t F) (podName podNameSpace : string)
    (exactMatch : bool) :
  matchesPOD ep podName podNameSpace exactMatch = true
  ↔ candidate ep podName podNameSpace exactMatch.
Proof.
  unfold matchesPOD, podNameMatches, candidate.
  rewrite andb_true_iff. destruct exactMatch; rewrite !String.eqb_eq; intuition.
Qed.

Section Loop.
Variables (h : heap F) (podName podNameSpace : string) (exactMatch : bool).

Lemma hit_candidate k p :
  hit h podName podNameSpace exactMatch (k, p)
  ↔ candidate (h p) podName podNameSpace exactMatch.
Proof. apply matchesPOD_candidate. Qed.

(** Once an endpoint has been kept, any further hit is one too many. *)
Lemma getEndpointByPOD_loop_kept entries (kept : ptr) :
  getEndpointByPOD_loop h podName podNameSpace exactMatch (Some kept) entries
  = match filter (hit h podName podNameSpace exactMatch) entries with
    | [] => Ok kept
    | _ :: _ => Err errMultipleEndpointsFound
    end.
Proof.
  induction entries as [|[k p] entries IH]; [reflexivity|].
  cbn [getEndpointByPOD_loop]. destruct (decide (hit h podName podNameSpace exactMatch (k, p))) as [H|H].
  - rewrite filter_cons_True by done. unfold hit in H. cbn [snd] in H. by rewrite H.
  - rewrite filter_cons_False by done. unfold hit in H. cbn [snd] in H.
    apply not_true_is_false in H. by rewrite H.
Qed.

(** The result of the whole loop is decided by the list of hits. *)
Lemma getEndpointByPOD_loop_hits entries :
  getEndpointByPOD_loop h podName podNameSpace exactMatch None entries
  = match filter (hit h podName podNameSpace exactMatch) entries with
    | [] => Err errEndpointNotFound
    | [(_, p)] => Ok p
    | _ :: _ :: _ => Err errMultipleEndpointsFound
    end.
Proof.
  induction entries as [|[k p] entries IH]; [reflexivity|].
  cbn [getEndpointByPOD_loop]. destruct (decide (hit h podName podNameSpace exactMatch (k, p))) as [H|H].
  - rewrite filter_cons_True by done. unfold hit in H. cbn [snd] in H. rewrite H.
    rewrite getEndpointByPOD_loop_kept. by destruct (filter (hit h podName podNameSpace exactMatch) entries).
  - rewrite filter_cons_False by done. unfold hit in H. cbn [snd] in H.
    apply not_true_is_false in H. by rewrite H.
Qed.

End Loop.

(** The order in which the range visits the entries does not matter. *)
Lemma getEndpointByPOD_order h nw entries podName podNameSpace exactMatch :
  range_order nw entries →
  getEndpointByPOD_in entries h podName podNameSpace exactMatch
  = getEndpointByPOD h nw podName podNameSpace exactMatch.
Proof.
  unfold range_order, getEndpointByPOD, getEndpointByPOD_in. intros Hperm.
  rewrite !getEndpointByPOD_loop_hits.
  assert (Hhits : filter (hit h podName podNameSpace exactMatch) entries
                  ≡ₚ filter (hit h podName podNameSpace exactMatch)
                       (map_to_list (network.Endpoints nw)))
    by (by rewrite Hperm).
  destruct (filter _ entries) as [|x [|y hits]].
  - by apply Permutation_nil_l in Hhits as <-.
  - by apply Permutation_singleton_l in Hhits as <-.
  - pose proof (Permutation_length Hhits) as Hlen.
    destruct (filter _ (map_to_list _)) as [|x' [|y' hits']]; [done..|].
    by destruct x, x'.
Qed.

(** The lookup in terms of the test of its loop body: the test holds of
    an endpoint exactly when [candidate] does. In whatever order the
    directory is visited, the lookup fails with [EndpointNotFound] when no
    entry passes the test, fails with [AmbiguousMatch] when two entries do,
    and returns the endpoint of the only entry that does otherwise. *)
Lemma getEndpointByPOD_spec h nw entries podName podNameSpace exactMatch :
  range_order nw entries →
  (∀ ep : endpoint.t F,
     matchesPOD ep podName podNameSpace exactMatch = true
     ↔ (if exactMatch then endpoint.PODName ep = podName
        else GetPodNameWithoutSuffix (endpoint.PODName ep) = podName)
       ∧ endpoint.PODNameSpace ep = podNameSpace) ∧
  ((∀ k p, network.Endpoints nw !! k = Some p →
           ¬ candidate (h p) podName podNameSpace exactMatch) →
   getEndpointByPOD_in entries h podName podNameSpace exactMatch
   = Err EndpointNotFound) ∧
  (∀ k1 p1 k2 p2,
     k1 ≠ k2 →
     network.Endpoints nw !! k1 = Some p1 → network.Endpoints nw !! k2 = Some p2 →
     candidate (h p1) podName podNameSpace exactMatch →
     candidate (h p2) podName podNameSpace exactMatch →
     getEndpointByPOD_in entries h podName podNameSpace exactMatch
     = Err AmbiguousMatch) ∧
  (∀ k p,
     network.Endpoints nw !! k = Some p →
     candidate (h p) podName podNameSpace exactMatch →
     (∀ k' p', network.Endpoints nw !! k' = Some p' →
               candidate (h p') podName podNameSpace exactMatch → k' = k) →
     getEndpointByPOD_in entries h podName podNameSpace exactMatch = Ok p).
Proof.
  intros Hperm. split; [intros ep; apply matchesPOD_candidate|].
  unfold getEndpointByPOD_in. rewrite getEndpointByPOD_loop_hits.
  set (hits := filter (hit h podName podNameSpace exactMatch) entries).
  assert (Hin : ∀ k p, (k, p) ∈ hits ↔
            network.Endpoints nw !! k = Some p
            ∧ candidate (h p) podName podNameSpace exactMatch).
  { intros k p. unfold hits. rewrite list_elem_of_filter, hit_candidate.
    rewrite Hperm, elem_of_map_to_list. tauto. }
  assert (Hnodup : NoDup hits).
  { unfold hits. apply NoDup_filter. rewrite Hperm. apply NoDup_map_to_list. }
  clearbody hits. split_and!.
  - intros Hnone. destruct hits as [|[k p] hits]; [done|].
    destruct (Hin k p) as [[Hk Hc] _]; [left|]. by destruct (Hnone k p).
  - intros k1 p1 k2 p2 Hne H1 H2 Hc1 Hc2.
    assert (E1 : (k1, p1) ∈ hits) by (by apply Hin).
    assert (E2 : (k2, p2) ∈ hits) by (by apply Hin).
    destruct hits as [|x [|y hits]]; [|exfalso|by destruct x].
    + by apply elem_of_nil in E1.
    + apply list_elem_of_singleton in E1, E2. congruence.
  - intros k p Hk Hc Huniq.
    assert (E : (k, p) ∈ hits) by (by apply Hin).
    assert (Hall : ∀ x, x ∈ hits → x = (k, p)).
    { intros [k' p'] [Hk' Hc']%Hin. assert (k' = k) as -> by eauto. congruence. }
    destruct hits as [|x [|y hits]].
    + by apply elem_of_nil in E.
    + rewrite (Hall x) by left. reflexivity.
    + exfalso. apply NoDup_cons in Hnodup as [Hx _]. apply Hx.
      rewrite (Hall x) by left. rewrite <- (Hall y) by (right; left). left.
Qed.

End Lookup.

Lemma range_order_singleton (nw : network.t) (entries : list (string * ptr)) k p :
  range_order nw entries → network.Endpoints nw = {[ k := p ]} → entries = [(k, p)].
Proof.
  unfold range_order. intros Hperm Hdir.
  rewrite Hdir, map_to_list_singleton in Hperm.
  by apply Permutation_singleton_r.
Qed.

(** C2: the lookup at the input of the claim. In a directory whose only
    endpoint has the pod name [web-7f9c8d-abcde] in the namespace
    [default], the stored pod name starts with the query
    [web-7f9c8d-abcde], which is the test the comment in [podNameMatches]
    describes for a lookup without exact match; the lookup without exact
    match under that query fails all the same, with [EndpointNotFound]. The
    lookup without exact match under [web] and the lookup with exact match
    under the full name return the endpoint. *)
Theorem getEndpointByPOD_single_replica (F : Foreign) (h : heap F) (nw : network.t)
    (entries : list (string * ptr)) (k : string) (p : ptr) :
  range_order nw entries →
  network.Endpoints nw = {[ k := p ]} →
  endpoint.PODName (h p) = "web-7f9c8d-abcde" →
  endpoint.PODNameSpace (h p) = "default" →
  String.prefix "web-7f9c8d-abcde" (endpoint.PODName (h p)) = true ∧
  getEndpointByPOD_in entries h "web-7f9c8d-abcde" "default" false
  = Err EndpointNotFound ∧
  getEndpointByPOD_in entries h "web" "default" false = Ok p ∧
  getEndpointByPOD_in entries h "web-7f9c8d-abcde" "default" true = Ok p.
Proof.
  intros Horder Hdir Hname Hns.
  rewrite (range_order_singleton _ _ _ _ Horder Hdir).
  unfold getEndpointByPOD_in. cbn [getEndpointByPOD_loop].
  unfold matchesPOD. rewrite Hname, Hns. by vm_compute.
Qed.

Lemma getEndpointByPOD_single_replica_witness :
  String.prefix "web-7f9c8d-abcde" (endpoint.PODName (sampleHeap 1%positive)) = true ∧
  getEndpointByPOD_in [("ep1", 1%positive)] sampleHeap "web-7f9c8d-abcde" "default" false
  = Err EndpointNotFound ∧
  getEndpointByPOD_in [("ep1", 1%positive)] sampleHeap "web" "default" false
  = Ok 1%positive ∧
  getEndpointByPOD_in [("ep1", 1%positive)] sampleHeap "web-7f9c8d-abcde" "default" true
  = Ok 1%positive.
Proof.
  apply (getEndpointByPOD_single_replica noForeign sampleHeap oneReplica
           [("ep1", 1%positive)] "ep1" 1%positive).
  - unfold range_order. by vm_compute.
  - reflexivity.
  - reflexivity.
  - reflexivity.
Defined.

(** The same input in the sample network: queried without exact match
    under its full pod name, the only endpoint of the directory is not
    found. *)
Lemma getEndpointByPOD_full_name_counterexample :
  network.Endpoints oneReplica = {[ "ep1" := 1%positive ]} ∧
  endpoint.PODName (sampleHeap 1%positive) = "web-7f9c8d-abcde" ∧
  endpoint.PODNameSpace (sampleHeap 1%positive) = "default" ∧
  getEndpointByPOD sampleHeap oneReplica "web-7f9c8d-abcde" "default" false
  = Err EndpointNotFound ∧
  getEndpointByPOD sampleHeap oneReplica "web-7f9c8d-abcde" "default" false
  ≠ Ok 1%positive.
Proof. split_and!; [reflexivity| reflexivity | reflexivity | by vm_compute | by vm_compute]. Qed.

(** ** Creating, deleting and updating *)

Section ManagerProperties.
Context {F : Foreign}.
Variable newEndpointImpl :
  heap F → network.t → EndpointInfo.t F → result (ptr * endpoint.t F).
Variable deleteEndpointImpl :
  heap F → network.t → ptr → option error.
Variable updateEndpointImpl :
  heap F → network.t → EndpointInfo.t F → EndpointInfo.t F → result (endpoint.t F).
Implicit Types (h : heap F) (nw : network.t) (epInfo : EndpointInfo.t F).

Lemma heap_lookup_insert h (p : ptr) (e : endpoint.t F) : (<[p := e]> h) p = e.
Proof. apply fn_lookup_insert. Qed.

Lemma heap_lookup_insert_ne h (p q : ptr) (e : endpoint.t F) :
  q ≠ p → (<[p := e]> h) q = h q.
Proof. intros Hq. by apply fn_lookup_insert_ne. Qed.

Lemma getEndpoint_lookup nw endpointId ep :
  getEndpoint nw endpointId = Ok ep ↔ network.Endpoints nw !! endpointId = Some ep.
Proof. unfold getEndpoint. destruct (_ !! _); naive_solver. Qed.

Lemma getEndpoint_absent nw endpointId :
  getEndpoint nw endpointId = Err EndpointNotFound
  ↔ network.Endpoints nw !! endpointId = None.
Proof. unfold getEndpoint. destruct (_ !! _); naive_solver. Qed.

(** C3: deleting an identifier that is not tracked succeeds and changes
    nothing; when the identifier is tracked and the platform teardown fails,
    the error is returned and nothing changes, so the entry is still there;
    when the teardown succeeds, that entry and no other is removed and the
    call succeeds. *)
Theorem deleteEndpoint_spec h nw endpointID :
  (network.Endpoints nw !! endpointID = None →
     deleteEndpoint deleteEndpointImpl h nw endpointID = (h, nw, None)) ∧
  (∀ ep err,
     network.Endpoints nw !! endpointID = Some ep →
     deleteEndpointImpl h nw ep = Some err →
     deleteEndpoint deleteEndpointImpl h nw endpointID = (h, nw, Some err)) ∧
  (∀ ep,
     network.Endpoints nw !! endpointID = Some ep →
     deleteEndpointImpl h nw ep = None →
     ∃ nw',
       deleteEndpoint deleteEndpointImpl h nw endpointID = (h, nw', None) ∧
       network.Id nw' = network.Id nw ∧
       network.Endpoints nw' = delete endpointID (network.Endpoints nw) ∧
       getEndpoint nw' endpointID = Err EndpointNotFound ∧
       (∀ k, k ≠ endpointID → network.Endpoints nw' !! k = network.Endpoints nw !! k)).
Proof.
  unfold deleteEndpoint, getEndpoint. split_and!.
  - by intros ->.
  - intros ep err -> Himpl. by rewrite Himpl.
  - intros ep -> Himpl. rewrite Himpl. eexists. split; [reflexivity|].
    cbn [network.Id network.Endpoints network.set_Endpoints]. split_and!; [done..| |].
    + by rewrite lookup_delete_eq.
    + intros k Hk. by rewrite lookup_delete_ne.
Qed.

(** C4: when the platform step fails, the error is returned and heap and
    directory are as before; when it succeeds, the endpoint it has built is
    entered in the directory under its own identifier, the other entries
    stay, and the endpoint is returned. *)
Theorem newEndpoint_spec h nw epInfo :
  (∀ err,
     newEndpointImpl h nw epInfo = Err err →
     newEndpoint newEndpointImpl h nw epInfo = (h, nw, Err err)) ∧
  (∀ ep built,
     newEndpointImpl h nw epInfo = Ok (ep, built) →
     ∃ h' nw',
       newEndpoint newEndpointImpl h nw epInfo = (h', nw', Ok ep) ∧
       h' ep = built ∧
       (∀ q, q ≠ ep → h' q = h q) ∧
       network.Id nw' = network.Id nw ∧
       network.Endpoints nw' = <[endpoint.Id built := ep]> (network.Endpoints nw) ∧
       getEndpoint nw' (endpoint.Id built) = Ok ep ∧
       (∀ k, k ≠ endpoint.Id built →
             network.Endpoints nw' !! k = network.Endpoints nw !! k)).
Proof.
  unfold newEndpoint. split.
  - intros err Himpl. by rewrite Himpl.
  - intros ep built Himpl. rewrite Himpl. cbv beta iota zeta.
    eexists _, _. split; [reflexivity|].
    cbn [network.Id network.Endpoints network.set_Endpoints].
    rewrite !heap_lookup_insert. split_and!; [done| |done|done| |].
    + intros q Hq. by rewrite heap_lookup_insert_ne.
    + apply getEndpoint_lookup. cbn [network.Endpoints network.set_Endpoints].
      by rewrite lookup_insert_eq.
    + intros k Hk. by rewrite lookup_insert_ne.
Qed.

(** When no object is tracked twice, a write to the object under one
    identifier leaves the endpoint under every other identifier as it is. *)
Lemma tracked_insert_other h nw (id k : string) (stored : ptr) (e : endpoint.t F) :
  distinctObjects nw →
  network.Endpoints nw !! id = Some stored →
  k ≠ id →
  tracked (<[stored := e]> h) nw k = tracked h nw k.
Proof.
  intros Hdistinct Hstored Hk. unfold tracked.
  destruct (network.Endpoints nw !! k) as [q|] eqn:Hq; [|done].
  cbn [fmap option_fmap option_map]. f_equal. apply heap_lookup_insert_ne.
  intros ->. apply Hk. by apply (Hdistinct _ _ stored).
Qed.

(** C5: a successful update leaves the directory as it is and changes one
    endpoint object, the stored one, in one field: its route list becomes
    the route list of the platform result. Every other field of the stored
    endpoint is as before, and so is every other endpoint object; in a
    directory that tracks no object twice, the endpoint under every other
    identifier is as before. *)
Theorem updateEndpoint_routes_only h nw (existingEpInfo targetEpInfo : EndpointInfo.t F)
    (stored : ptr) (ep : endpoint.t F) :
  network.Endpoints nw !! EndpointInfo.EndpointID existingEpInfo = Some stored →
  updateEndpointImpl h nw existingEpInfo targetEpInfo = Ok ep →
  ∃ h',
    updateEndpoint updateEndpointImpl h nw existingEpInfo targetEpInfo = (h', nw, None) ∧
    endpoint.Routes (h' stored) = endpoint.Routes ep ∧
    sameExceptRoutes (h stored) (h' stored) ∧
    (∀ q, q ≠ stored → h' q = h q) ∧
    (distinctObjects nw →
     ∀ k, k ≠ EndpointInfo.EndpointID existingEpInfo → tracked h' nw k = tracked h nw k).
Proof.
  intros Hstored Himpl. unfold updateEndpoint. rewrite Hstored, Himpl.
  eexists. split; [reflexivity|]. rewrite heap_lookup_insert. split_and!.
  - reflexivity.
  - unfold sameExceptRoutes. by repeat split.
  - intros q Hq. by rewrite heap_lookup_insert_ne.
  - intros Hdistinct k Hk. by eapply tracked_insert_other.
Qed.

(** C6: an update of an identifier that is not tracked fails with
    [EndpointNotFound] and changes nothing; when the platform
    reconciliation fails, its error is returned and nothing changes: the
    routes of the stored endpoint, the other endpoints and the directory
    are as before. *)
Theorem updateEndpoint_failure h nw (existingEpInfo targetEpInfo : EndpointInfo.t F) :
  (network.Endpoints nw !! EndpointInfo.EndpointID existingEpInfo = None →
     updateEndpoint updateEndpointImpl h nw existingEpInfo targetEpInfo
     = (h, nw, Some EndpointNotFound)) ∧
  (∀ stored err,
     network.Endpoints nw !! EndpointInfo.EndpointID existingEpInfo = Some stored →
     updateEndpointImpl h nw existingEpInfo targetEpInfo = Err err →
     updateEndpoint updateEndpointImpl h nw existingEpInfo targetEpInfo
     = (h, nw, Some err)).
Proof.
  unfold updateEndpoint. split.
  - by intros ->.
  - intros stored err -> Himpl. by rewrite Himpl.
Qed.

(** The directory keeps tracking no object twice: creation preserves it
    when the platform returns an object that is not tracked yet, deletion
    preserves it always, and an update does not touch the directory. *)
Lemma newEndpoint_distinctObjects h nw epInfo (ep : ptr) (built : endpoint.t F) :
  distinctObjects nw →
  (∀ k, network.Endpoints nw !! k ≠ Some ep) →
  newEndpointImpl h nw epInfo = Ok (ep, built) →
  distinctObjects (newEndpoint newEndpointImpl h nw epInfo).1.2.
Proof.
  intros Hdistinct Hfresh Himpl. unfold newEndpoint. rewrite Himpl.
  cbv beta iota zeta. cbn [fst snd]. intros k1 k2 p.
  cbn [network.Endpoints network.set_Endpoints].
  rewrite !lookup_insert_Some.
  intros [[<- <-]|[Hk1 H1]] [[<- Hp]|[Hk2 H2]]; try done.
  - by destruct (Hfresh k2).
  - subst p. by destruct (Hfresh k1).
  - by apply (Hdistinct _ _ p).
Qed.

Lemma deleteEndpoint_distinctObjects h nw endpointID :
  distinctObjects nw →
  distinctObjects (deleteEndpoint deleteEndpointImpl h nw endpointID).1.2.
Proof.
  intros Hdistinct. unfold deleteEndpoint.
  destruct (getEndpoint nw endpointID) as [ep|]; [|done].
  destruct (deleteEndpointImpl h nw ep); [done|].
  cbn [fst snd]. intros k1 k2 p.
  cbn [network.Endpoints network.set_Endpoints].
  rewrite !lookup_delete_Some. intros [_ H1] [_ H2]. by apply (Hdistinct _ _ p).
Qed.

End ManagerProperties.

Lemma deleteEndpoint_spec_witness :
  deleteEndpoint sampleDeleteEndpointImpl sampleHeap twoReplicas "gone"
  = (sampleHeap, twoReplicas, None) ∧
  deleteEndpoint sampleDeleteEndpointImpl sampleHeap twoReplicas "ep3"
  = (sampleHeap, twoReplicas, Some (errorsNew "platform failure")) ∧
  ∃ nw',
    deleteEndpoint sampleDeleteEndpointImpl sampleHeap twoReplicas "ep1"
    = (sampleHeap, nw', None) ∧
    network.Id nw' = network.Id twoReplicas ∧
    network.Endpoints nw' = delete "ep1" (network.Endpoints twoReplicas) ∧
    getEndpoint nw' "ep1" = Err EndpointNotFound ∧
    (∀ k, k ≠ "ep1" → network.Endpoints nw' !! k = network.Endpoints twoReplicas !! k).
Proof.
  split_and!.
  - apply (proj1 (deleteEndpoint_spec sampleDeleteEndpointImpl sampleHeap twoReplicas "gone")).
    by vm_compute.
  - apply (proj1 (proj2 (deleteEndpoint_spec sampleDeleteEndpointImpl sampleHeap
                           twoReplicas "ep3")) 3%positive).
    + by vm_compute.
    + reflexivity.
  - apply (proj2 (proj2 (deleteEndpoint_spec sampleDeleteEndpointImpl sampleHeap
                           twoReplicas "ep1")) 1%positive).
    + by vm_compute.
    + reflexivity.
Defined.

Lemma newEndpoint_spec_witness :
  newEndpoint sampleNewEndpointImpl sampleHeap twoReplicas (sampleEndpointInfo "bad" "" "" [])
  = (sampleHeap, twoReplicas, Err (errorsNew "platform failure")) ∧
  ∃ h' nw',
    newEndpoint sampleNewEndpointImpl sampleHeap twoReplicas (sampleEndpointInfo "ep4" "" "" [])
    = (h', nw', Ok 4%positive) ∧
    h' 4%positive = sampleEndpoint "ep4" "" "c4" "cache-0" "default" "InfraNIC" ∧
    network.Endpoints nw' = <["ep4" := 4%positive]> (network.Endpoints twoReplicas) ∧
    getEndpoint nw' "ep4" = Ok 4%positive.
Proof.
  split.
  - apply (proj1 (newEndpoint_spec sampleNewEndpointImpl sampleHeap twoReplicas
                    (sampleEndpointInfo "bad" "" "" []))).
    reflexivity.
  - destruct (proj2 (newEndpoint_spec sampleNewEndpointImpl sampleHeap twoReplicas
                       (sampleEndpointInfo "ep4" "" "" [])) 4%positive
                (sampleEndpoint "ep4" "" "c4" "cache-0" "default" "InfraNIC") eq_refl)
      as (h' & nw' & Hnew & Hbuilt & _ & _ & Hdir & Hget & _).
    by exists h', nw'.
Defined.

Lemma updateEndpoint_routes_only_witness :
  ∃ h',
    updateEndpoint sampleUpdateEndpointImpl sampleHeap twoReplicas
      (sampleEndpointInfo "ep1" "" "veth1" [])
      (sampleEndpointInfo "ep1" "" "veth1" [sampleRoute "eth0"])
    = (h', twoReplicas, None) ∧
    endpoint.Routes (h' 1%positive) = [sampleRoute "eth0"] ∧
    sameExceptRoutes (sampleHeap 1%positive) (h' 1%positive) ∧
    h' 2%positive = sampleHeap 2%positive ∧
    h' 3%positive = sampleHeap 3%positive ∧
    tracked h' twoReplicas "ep2" = tracked sampleHeap twoReplicas "ep2".
Proof.
  destruct (updateEndpoint_routes_only sampleUpdateEndpointImpl sampleHeap twoReplicas
              (sampleEndpointInfo "ep1" "" "veth1" [])
              (sampleEndpointInfo "ep1" "" "veth1" [sampleRoute "eth0"]) 1%positive
              (endpoint.set_Routes [sampleRoute "eth0"] (sampleEndpoint "ep1" "" "" "" "" "")))
    as (h' & Hupd & Hroutes & Hsame & Hothers & Hentries).
  - by vm_compute.
  - reflexivity.
  - exists h'. split_and!; [done..| | |].
    + by apply Hothers.
    + by apply Hothers.
    + apply Hentries; [|done].
      intros k1 k2 p H1 H2. unfold twoReplicas in H1, H2.
      cbn [network.Endpoints] in H1, H2.
      repeat (apply lookup_insert_Some in H1 as [[<- <-]|[? H1]]);
        try apply lookup_singleton_Some in H1 as [<- <-];
        repeat (apply lookup_insert_Some in H2 as [[<- ?]|[? H2]]);
        try apply lookup_singleton_Some in H2 as [<- ?];
        done.
Defined.

Lemma updateEndpoint_failure_witness :
  updateEndpoint sampleUpdateEndpointImpl sampleHeap twoReplicas
    (sampleEndpointInfo "gone" "" "" []) (sampleEndpointInfo "gone" "" "" [sampleRoute "eth0"])
  = (sampleHeap, twoReplicas, Some EndpointNotFound) ∧
  updateEndpoint sampleUpdateEndpointImpl sampleHeap twoReplicas
    (sampleEndpointInfo "ep1" "" "" []) (sampleEndpointInfo "bad" "" "" [sampleRoute "eth0"])
  = (sampleHeap, twoReplicas, Some (errorsNew "platform failure")).
Proof.
  split.
  - apply (proj1 (updateEndpoint_failure sampleUpdateEndpointImpl sampleHeap twoReplicas
                    (sampleEndpointInfo "gone" "" "" []) _)).
    by vm_compute.
  - apply (proj2 (updateEndpoint_failure sampleUpdateEndpointImpl sampleHeap twoReplicas
                    (sampleEndpointInfo "ep1" "" "" []) _) 1%positive).
    + by vm_compute.
    + reflexivity.
Defined.

(** * Further properties *)

(** ** Pod names *)

Lemma length_append (x y : string) :
  String.length (x +:+ y) = String.length x + String.length y.
Proof.
  induction x as [|c x IH]; [reflexivity|].
  change (S (String.length (x +:+ y)) = S (String.length x) + String.length y).
  by rewrite IH.
Qed.

Lemma hyphens_append (x y : string) : hyphens (x +:+ y) = hyphens x + hyphens y.
Proof.
  induction x as [|c x IH]; [reflexivity|].
  change (String c x +:+ y) with (String c (x +:+ y)).
  cbn [hyphens]. rewrite IH. lia.
Qed.

(** The function returns its argument exactly when the argument has at
    most one hyphen. *)
Lemma GetPodNameWithoutSuffix_fixed (podName : string) :
  GetPodNameWithoutSuffix podName = podName ↔ hyphens podName ≤ 1.
Proof.
  split.
  - intros Hfix. destruct (decide (hyphens podName ≤ 1)) as [|Hmany]; [done|].
    destruct (GetPodNameWithoutSuffix_strip podName) as (base & a & b & _ & _ & Hname & _ & Hbase);
      [lia|].
    rewrite Hfix in Hbase. apply (f_equal String.length) in Hname.
    rewrite <- Hbase, !length_append in Hname. cbn [String.length] in Hname. lia.
  - intros Hfew. unfold GetPodNameWithoutSuffix. cbv zeta. rewrite Split_length.
    by destruct (Nat.ltb_spec 2 (S (hyphens podName))); [lia|].
Qed.

(** X1: a pod name always matches itself under exact match; without exact
    match it matches itself exactly when it has at most one hyphen. *)
Theorem podNameMatches_self (source : string) :
  podNameMatches source source true = true ∧
  (podNameMatches source source false = true ↔ hyphens source ≤ 1).
Proof.
  unfold podNameMatches. split; [apply String.eqb_refl|].
  rewrite String.eqb_eq, <- GetPodNameWithoutSuffix_fixed. split; congruence.
Qed.

(** X3: the result is a prefix of the pod name, and when the pod name has
    two hyphens or more the result has two hyphens fewer. *)
Theorem GetPodNameWithoutSuffix_prefix (podName : string) :
  (∃ suffix, podName = GetPodNameWithoutSuffix podName +:+ suffix) ∧
  (2 ≤ hyphens podName →
     hyphens (GetPodNameWithoutSuffix podName) + 2 = hyphens podName ∧
     String.length (GetPodNameWithoutSuffix podName) + 2 ≤ String.length podName).
Proof.
  split.
  - destruct (decide (hyphens podName ≤ 1)) as [Hfew|Hmany].
    + exists "". rewrite (proj2 (GetPodNameWithoutSuffix_fixed podName) Hfew).
      clear. induction podName as [|c s IH]; [reflexivity|].
      change (String c s = String c (s +:+ "")). by f_equal.
    + destruct (GetPodNameWithoutSuffix_strip podName)
        as (base & a & b & _ & _ & Hname & _ & ->); [lia|].
      by exists ("-" +:+ a +:+ "-" +:+ b).
  - intros Hmany.
    destruct (GetPodNameWithoutSuffix_strip podName)
      as (base & a & b & Ha & Hb & Hname & _ & ->); [done|].
    split.
    + rewrite Hname, !hyphens_append, Ha, Hb. cbn. lia.
    + rewrite Hname, !length_append. cbn [String.length]. lia.
Qed.

Lemma GetPodNameWithoutSuffix_prefix_witness :
  hyphens (GetPodNameWithoutSuffix "my-app-7f9c8d-abcde") + 2 = hyphens "my-app-7f9c8d-abcde" ∧
  String.length (GetPodNameWithoutSuffix "my-app-7f9c8d-abcde") + 2
  ≤ String.length "my-app-7f9c8d-abcde".
Proof.
  apply (proj2 (GetPodNameWithoutSuffix_prefix "my-app-7f9c8d-abcde")).
  vm_compute. lia.
Defined.

(** X4: a name made of any base, a hyphen, a segment, a hyphen and a
    segment, the two segments free of hyphens, is stripped to the base. *)
Theorem GetPodNameWithoutSuffix_generated (base a b : string) :
  hyphens a = 0 → hyphens b = 0 →
  GetPodNameWithoutSuffix (base +:+ "-" +:+ a +:+ "-" +:+ b) = base ∧
  podNameMatches (base +:+ "-" +:+ a +:+ "-" +:+ b) base false = true.
Proof.
  intros Ha Hb.
  assert (Hstrip : GetPodNameWithoutSuffix (base +:+ "-" +:+ a +:+ "-" +:+ b) = base)
    by by apply GetPodNameWithoutSuffix_unique.
  split; [done|]. unfold podNameMatches. rewrite Hstrip. apply String.eqb_refl.
Qed.

Lemma GetPodNameWithoutSuffix_generated_witness :
  GetPodNameWithoutSuffix ("my-app" +:+ "-" +:+ "7f9c8d" +:+ "-" +:+ "abcde") = "my-app" ∧
  podNameMatches ("my-app" +:+ "-" +:+ "7f9c8d" +:+ "-" +:+ "abcde") "my-app" false = true.
Proof.
  apply (GetPodNameWithoutSuffix_generated "my-app" "7f9c8d" "abcde"); reflexivity.
Defined.

(** ** Lookup by pod, read from its result *)

Section LookupResult.
Context {F : Foreign}.
Implicit Types (h : heap F) (nw : network.t) (entries : list (string * ptr)).

(** X5: what a result of the lookup says about the directory. An endpoint
    that is returned is tracked, is a candidate, and is the only candidate;
    [errEndpointNotFound] means that no tracked endpoint is a candidate;
    [errMultipleEndpointsFound] means that two entries are candidates; no
    other error is returned. *)
Theorem getEndpointByPOD_result h nw entries podName podNameSpace exactMatch :
  range_order nw entries →
  match getEndpointByPOD_in entries h podName podNameSpace exactMatch with
  | Ok p =>
      ∃ k, network.Endpoints nw !! k = Some p ∧
           candidate (h p) podName podNameSpace exactMatch ∧
           (∀ k' p', network.Endpoints nw !! k' = Some p' →
                     candidate (h p') podName podNameSpace exactMatch → k' = k)
  | Err err =>
      (err = errEndpointNotFound ∧
       ∀ k p, network.Endpoints nw !! k = Some p →
              ¬ candidate (h p) podName podNameSpace exactMatch) ∨
      (err = errMultipleEndpointsFound ∧
       ∃ k1 p1 k2 p2,
         k1 ≠ k2 ∧
         network.Endpoints nw !! k1 = Some p1 ∧ network.Endpoints nw !! k2 = Some p2 ∧
         candidate (h p1) podName podNameSpace exactMatch ∧
         candidate (h p2) podName podNameSpace exactMatch)
  end.
Proof.
  intros Hperm. unfold getEndpointByPOD_in. rewrite getEndpointByPOD_loop_hits.
  set (hits := filter (hit h podName podNameSpace exactMatch) entries).
  assert (Hin : ∀ k p, (k, p) ∈ hits ↔
            network.Endpoints nw !! k = Some p
            ∧ candidate (h p) podName podNameSpace exactMatch).
  { intros k p. unfold hits. rewrite list_elem_of_filter, hit_candidate.
    rewrite Hperm, elem_of_map_to_list. tauto. }
  assert (Hnodup : NoDup hits).
  { unfold hits. apply NoDup_filter. rewrite Hperm. apply NoDup_map_to_list. }
  clearbody hits. destruct hits as [|[k p] [|[k' p'] hits]].
  - left. split; [done|]. intros k p Hk Hc.
    assert (E : (k, p) ∈ []) by (by apply Hin). by apply elem_of_nil in E.
  - destruct (Hin k p) as [[Hk Hc] _]; [left|]. exists k. split_and!; [done..|].
    intros k2 p2 Hk2 Hc2.
    assert (E : (k2, p2) ∈ [(k, p)]) by (by apply Hin).
    apply list_elem_of_singleton in E. congruence.
  - right. split; [done|].
    destruct (Hin k p) as [[Hk Hc] _]; [left|].
    destruct (Hin k' p') as [[Hk' Hc'] _]; [right; left|].
    exists k, p, k', p'. split_and!; try done.
    intros ->. apply NoDup_cons in Hnodup as [Hx _]. apply Hx.
    assert (p' = p) as -> by congruence. left.
Qed.

(** X6: the result does not depend on the order in which the range visits
    the directory. *)
Theorem getEndpointByPOD_any_order h nw entries entries' podName podNameSpace exactMatch :
  range_order nw entries → range_order nw entries' →
  getEndpointByPOD_in entries h podName podNameSpace exactMatch
  = getEndpointByPOD_in entries' h podName podNameSpace exactMatch.
Proof.
  intros H H'. by rewrite (getEndpointByPOD_order _ _ _ _ _ _ H),
                          (getEndpointByPOD_order _ _ _ _ _ _ H').
Qed.

(** The lookup reads two fields of the endpoints: in two heaps whose
    objects agree on pod name and pod namespace it gives the same result. *)
Lemma getEndpointByPOD_loop_ext h h' podName podNameSpace exactMatch kept entries :
  (∀ p, endpoint.PODName (h' p) = endpoint.PODName (h p)
        ∧ endpoint.PODNameSpace (h' p) = endpoint.PODNameSpace (h p)) →
  getEndpointByPOD_loop h' podName podNameSpace exactMatch kept entries
  = getEndpointByPOD_loop h podName podNameSpace exactMatch kept entries.
Proof.
  intros Hsame. revert kept. induction entries as [|[k p] entries IH]; intros kept;
    [reflexivity|].
  cbn [getEndpointByPOD_loop]. unfold matchesPOD.
  destruct (Hsame p) as [-> ->]. rewrite !IH. reflexivity.
Qed.

End LookupResult.

Lemma getEndpointByPOD_result_witness :
  ∃ k, network.Endpoints replicaAndDb !! k = Some 1%positive ∧
       candidate (sampleHeap 1%positive) "web" "default" false ∧
       (∀ k' p', network.Endpoints replicaAndDb !! k' = Some p' →
                 candidate (sampleHeap p') "web" "default" false → k' = k).
Proof.
  assert (Horder : range_order replicaAndDb [("ep1", 1%positive); ("ep3", 3%positive)]).
  { unfold range_order. vm_compute. apply perm_swap. }
  exact (getEndpointByPOD_result sampleHeap replicaAndDb _ "web" "default" false Horder).
Defined.

Lemma getEndpointByPOD_any_order_witness :
  getEndpointByPOD_in [("ep2", 2%positive); ("ep3", 3%positive); ("ep1", 1%positive)]
    sampleHeap "web" "default" false
  = getEndpointByPOD_in [("ep1", 1%positive); ("ep2", 2%positive); ("ep3", 3%positive)]
      sampleHeap "web" "default" false.
Proof.
  apply (getEndpointByPOD_any_order sampleHeap twoReplicas).
  - unfold range_order. vm_compute. apply (Permutation_app_comm [_] [_; _]).
  - unfold range_order. vm_compute. apply (Permutation_app_comm [_; _] [_]).
Defined.

(** ** Attach and detach as a pair *)

Lemma set_SandboxKey_same (F : Foreign) (ep : endpoint.t F) :
  endpoint.set_SandboxKey (endpoint.SandboxKey ep) ep = ep.
Proof. by destruct ep. Qed.

Lemma set_SandboxKey_twice (F : Foreign) (ep : endpoint.t F) (key key' : string) :
  endpoint.set_SandboxKey key' (endpoint.set_SandboxKey key ep)
  = endpoint.set_SandboxKey key' ep.
Proof. by destruct ep. Qed.

(** X7: on an endpoint that is not attached, an attach with a key that is
    not empty followed by a detach gives the endpoint back as it was; on an
    attached endpoint, a detach followed by an attach with the old key gives
    the endpoint back as it was. Both calls of each pair succeed. *)
Theorem attach_detach_roundtrip (F : Foreign) (ep : endpoint.t F) (sandboxKey : string) :
  (endpoint.SandboxKey ep = "" → sandboxKey ≠ "" →
     (attach ep sandboxKey).2 = None ∧ detach (attach ep sandboxKey).1 = (ep, None)) ∧
  (endpoint.SandboxKey ep ≠ "" →
     (detach ep).2 = None ∧ attach (detach ep).1 (endpoint.SandboxKey ep) = (ep, None)).
Proof.
  split.
  - intros Hfree Hkey. rewrite (attach_free _ _ _ Hfree). cbn [fst snd]. split; [done|].
    rewrite detach_in_use by done. rewrite set_SandboxKey_twice.
    by rewrite <- Hfree, set_SandboxKey_same.
  - intros Hused. rewrite (detach_in_use _ _ Hused). cbn [fst snd]. split; [done|].
    rewrite attach_free by done. by rewrite set_SandboxKey_twice, set_SandboxKey_same.
Qed.

Lemma attach_detach_roundtrip_witness :
  ((attach unattached "sandbox-1").2 = None ∧
   detach (attach unattached "sandbox-1").1 = (unattached, None)) ∧
  ((detach attached).2 = None ∧
   attach (detach attached).1 (endpoint.SandboxKey attached) = (attached, None)).
Proof.
  split.
  - apply (proj1 (attach_detach_roundtrip noForeign unattached "sandbox-1"));
      [reflexivity|discriminate].
  - apply (proj2 (attach_detach_roundtrip noForeign attached "sandbox-1")). discriminate.
Defined.

(** X8: whatever their outcome, [attach] and [detach] change no field of
    the endpoint other than the sandbox key: putting the old key back gives
    the old endpoint, and the endpoint validates and matches pod queries as
    before. *)
Theorem attach_detach_frame (F : Foreign) (ep : endpoint.t F) (sandboxKey : string) :
  endpoint.set_SandboxKey (endpoint.SandboxKey ep) (attach ep sandboxKey).1 = ep ∧
  endpoint.set_SandboxKey (endpoint.SandboxKey ep) (detach ep).1 = ep ∧
  validateEndpoint (attach ep sandboxKey).1 = validateEndpoint ep ∧
  validateEndpoint (detach ep).1 = validateEndpoint ep ∧
  (∀ podName podNameSpace exactMatch,
     matchesPOD (attach ep sandboxKey).1 podName podNameSpace exactMatch
     = matchesPOD ep podName podNameSpace exactMatch ∧
     matchesPOD (detach ep).1 podName podNameSpace exactMatch
     = matchesPOD ep podName podNameSpace exactMatch).
Proof.
  unfold attach, detach.
  destruct (String.eqb (endpoint.SandboxKey ep) ""); cbn [negb fst];
    rewrite ?set_SandboxKey_twice, ?set_SandboxKey_same; by repeat split.
Qed.

(** ** The directory across operations *)

Section DirectoryProperties.
Context {F : Foreign}.
Variable newEndpointImpl :
  heap F → network.t → EndpointInfo.t F → result (ptr * endpoint.t F).
Variable deleteEndpointImpl deleteEndpointImpl' :
  heap F → network.t → ptr → option error.
Variable updateEndpointImpl :
  heap F → network.t → EndpointInfo.t F → EndpointInfo.t F → result (endpoint.t F).
Implicit Types (h : heap F) (nw : network.t) (epInfo : EndpointInfo.t F).

(** X9: the life of an endpoint. On a network that does not track the
    identifier, with a platform that builds an unattached endpoint: after
    the creation the endpoint is found under its identifier; the attach
    with a key that is not empty and the detach that follows both succeed
    and leave the endpoint as it was built; after a deletion whose teardown
    succeeds the network is the one before the creation and the identifier
    is not found. *)
Theorem endpoint_lifecycle h nw epInfo (ep : ptr) (built : endpoint.t F)
    (sandboxKey : string) :
  network.Endpoints nw !! endpoint.Id built = None →
  newEndpointImpl h nw epInfo = Ok (ep, built) →
  endpoint.SandboxKey built = "" →
  sandboxKey ≠ "" →
  let sCreate := newEndpoint newEndpointImpl h nw epInfo in
  let sAttach := attachAt sCreate.1.1 ep sandboxKey in
  let sDetach := detachAt sAttach.1 ep in
  deleteEndpointImpl sDetach.1 sCreate.1.2 ep = None →
  let sDelete := deleteEndpoint deleteEndpointImpl sDetach.1 sCreate.1.2 (endpoint.Id built) in
  sCreate.2 = Ok ep ∧
  getEndpoint sCreate.1.2 (endpoint.Id built) = Ok ep ∧
  sAttach.2 = None ∧
  endpoint.SandboxKey (sAttach.1 ep) = sandboxKey ∧
  sDetach.2 = None ∧
  sDetach.1 ep = built ∧
  sDelete.2 = None ∧
  sDelete.1.2 = nw ∧
  getEndpoint sDelete.1.2 (endpoint.Id built) = Err errEndpointNotFound.
Proof.
  intros Habsent Himpl Hfree Hkey. unfold newEndpoint. rewrite Himpl.
  cbv beta iota zeta. cbn [fst snd]. rewrite heap_lookup_insert.
  unfold attachAt. rewrite heap_lookup_insert, (attach_free _ _ _ Hfree).
  cbn [fst snd]. unfold detachAt. rewrite heap_lookup_insert.
  rewrite detach_in_use by done. cbn [fst snd].
  rewrite set_SandboxKey_twice, <- Hfree, set_SandboxKey_same.
  intros Hdown. unfold deleteEndpoint, getEndpoint.
  cbn [network.Endpoints network.set_Endpoints].
  rewrite lookup_insert_eq, Hdown. cbn [fst snd network.Endpoints network.set_Endpoints].
  rewrite !heap_lookup_insert, delete_insert_eq, lookup_delete_eq by done.
  rewrite (delete_id _ _ Habsent). split_and!; try done.
  by destruct nw.
Qed.

Lemma deleteEndpoint_success_absent h nw endpointID :
  (deleteEndpoint deleteEndpointImpl h nw endpointID).2 = None →
  network.Endpoints (deleteEndpoint deleteEndpointImpl h nw endpointID).1.2 !! endpointID
  = None.
Proof.
  unfold deleteEndpoint, getEndpoint.
  destruct (network.Endpoints nw !! endpointID) as [ep|] eqn:Hep; [|done].
  destruct (deleteEndpointImpl h nw ep); [done|]. intros _.
  cbn [fst snd network.Endpoints network.set_Endpoints]. apply lookup_delete_eq.
Qed.

(** X10: a delete that has succeeded can be repeated: whatever the
    teardown of the second call would answer, the second call succeeds and
    changes nothing. *)
Theorem deleteEndpoint_retry h nw endpointID :
  (deleteEndpoint deleteEndpointImpl h nw endpointID).2 = None →
  deleteEndpoint deleteEndpointImpl'
    (deleteEndpoint deleteEndpointImpl h nw endpointID).1.1
    (deleteEndpoint deleteEndpointImpl h nw endpointID).1.2 endpointID
  = ((deleteEndpoint deleteEndpointImpl h nw endpointID).1.1,
     (deleteEndpoint deleteEndpointImpl h nw endpointID).1.2, None).
Proof.
  intros Habsent%deleteEndpoint_success_absent.
  destruct (deleteEndpoint deleteEndpointImpl h nw endpointID) as [[h1 nw1] err1].
  cbn [fst snd] in *. unfold deleteEndpoint, getEndpoint. by rewrite Habsent.
Qed.

(** X11: the number of endpoints after a creation that succeeds: one more
    when the identifier of the new endpoint was not tracked, the same when
    it was, the new endpoint taking the place of the old one. *)
Theorem newEndpoint_size h nw epInfo (ep : ptr) (built : endpoint.t F) :
  newEndpointImpl h nw epInfo = Ok (ep, built) →
  size (network.Endpoints (newEndpoint newEndpointImpl h nw epInfo).1.2)
  = match network.Endpoints nw !! endpoint.Id built with
    | None => S (size (network.Endpoints nw))
    | Some _ => size (network.Endpoints nw)
    end.
Proof.
  intros Himpl. unfold newEndpoint. rewrite Himpl. cbv beta iota zeta.
  cbn [fst snd network.Endpoints network.set_Endpoints]. rewrite heap_lookup_insert.
  destruct (network.Endpoints nw !! endpoint.Id built) as [old|] eqn:Hold.
  - by apply map_size_insert_Some.
  - by apply map_size_insert_None.
Qed.

(** X12: the number of endpoints after a delete: one fewer when the
    identifier was tracked and the teardown succeeded, the same in every
    other case. *)
Theorem deleteEndpoint_size h nw endpointID :
  size (network.Endpoints (deleteEndpoint deleteEndpointImpl h nw endpointID).1.2)
  = match network.Endpoints nw !! endpointID with
    | Some ep =>
        match deleteEndpointImpl h nw ep with
        | None => size (network.Endpoints nw) - 1
        | Some _ => size (network.Endpoints nw)
        end
    | None => size (network.Endpoints nw)
    end.
Proof.
  unfold deleteEndpoint, getEndpoint.
  destruct (network.Endpoints nw !! endpointID) as [ep|] eqn:Hep; [|done].
  destruct (deleteEndpointImpl h nw ep); [done|].
  cbn [fst snd network.Endpoints network.set_Endpoints].
  rewrite map_size_delete, Hep. simpl. lia.
Qed.

End DirectoryProperties.

Section Invariants.
Context {F : Foreign}.
Variable newEndpointImpl :
  heap F → network.t → EndpointInfo.t F → result (ptr * endpoint.t F).
Variable deleteEndpointImpl :
  heap F → network.t → ptr → option error.
Variable updateEndpointImpl :
  heap F → network.t → EndpointInfo.t F → EndpointInfo.t F → result (endpoint.t F).
Implicit Types (h : heap F) (nw : network.t) (epInfo : EndpointInfo.t F).

(** X13: a creation for an identifier that is already tracked replaces the
    entry: the identifier now leads to the new endpoint, and in a directory
    that tracks no object twice the old endpoint is no longer tracked under
    any identifier. *)
Theorem newEndpoint_replaces h nw epInfo (ep old : ptr) (built : endpoint.t F) :
  newEndpointImpl h nw epInfo = Ok (ep, built) →
  network.Endpoints nw !! endpoint.Id built = Some old →
  old ≠ ep →
  distinctObjects nw →
  getEndpoint (newEndpoint newEndpointImpl h nw epInfo).1.2 (endpoint.Id built) = Ok ep ∧
  ∀ k, network.Endpoints (newEndpoint newEndpointImpl h nw epInfo).1.2 !! k ≠ Some old.
Proof.
  intros Himpl Hold Hne Hdistinct. unfold newEndpoint, getEndpoint. rewrite Himpl.
  cbv beta iota zeta. cbn [fst snd network.Endpoints network.set_Endpoints].
  rewrite heap_lookup_insert, lookup_insert_eq. split; [done|].
  intros k. destruct (decide (k = endpoint.Id built)) as [->|Hk].
  - rewrite lookup_insert_eq. congruence.
  - rewrite lookup_insert_ne by done. intros Hk'. apply Hk.
    by apply (Hdistinct _ _ old).
Qed.

(** X14: a creation keeps every entry stored under the identifier of its
    object, when the object the platform returns is not tracked yet. *)
Theorem newEndpoint_keyedById h nw epInfo (ep : ptr) (built : endpoint.t F) :
  keyedById h nw →
  (∀ k, network.Endpoints nw !! k ≠ Some ep) →
  newEndpointImpl h nw epInfo = Ok (ep, built) →
  keyedById (newEndpoint newEndpointImpl h nw epInfo).1.1
            (newEndpoint newEndpointImpl h nw epInfo).1.2.
Proof.
  intros Hkeyed Hfresh Himpl. unfold newEndpoint. rewrite Himpl.
  cbv beta iota zeta. cbn [fst snd]. rewrite heap_lookup_insert. intros k p.
  cbn [network.Endpoints network.set_Endpoints].
  rewrite lookup_insert_Some. intros [[<- <-]|[Hk Hp]].
  - by rewrite heap_lookup_insert.
  - rewrite heap_lookup_insert_ne; [by apply Hkeyed|].
    intros ->. by destruct (Hfresh k).
Qed.

Lemma attach_Id (e : endpoint.t F) (key : string) :
  endpoint.Id (attach e key).1 = endpoint.Id e.
Proof. unfold attach. by destruct (negb _). Qed.

Lemma detach_Id (e : endpoint.t F) : endpoint.Id (detach e).1 = endpoint.Id e.
Proof. unfold detach. by destruct (String.eqb _ _). Qed.

Lemma keyedById_write h nw (p : ptr) (e : endpoint.t F) :
  keyedById h nw → endpoint.Id e = endpoint.Id (h p) → keyedById (<[p := e]> h) nw.
Proof.
  intros Hkeyed He k q Hq. destruct (decide (p = q)) as [->|Hne].
  - rewrite heap_lookup_insert, He. by apply Hkeyed.
  - rewrite heap_lookup_insert_ne by done. by apply Hkeyed.
Qed.

(** X15: whatever their outcome, a delete, an update, an attach and a
    detach keep every entry stored under the identifier of its object. *)
Theorem keyedById_kept h nw :
  keyedById h nw →
  (∀ endpointID,
     keyedById (deleteEndpoint deleteEndpointImpl h nw endpointID).1.1
               (deleteEndpoint deleteEndpointImpl h nw endpointID).1.2) ∧
  (∀ existingEpInfo targetEpInfo,
     keyedById (updateEndpoint updateEndpointImpl h nw existingEpInfo targetEpInfo).1.1
               (updateEndpoint updateEndpointImpl h nw existingEpInfo targetEpInfo).1.2) ∧
  (∀ ep sandboxKey, keyedById (attachAt h ep sandboxKey).1 nw) ∧
  (∀ ep, keyedById (detachAt h ep).1 nw).
Proof.
  intros Hkeyed. split_and!.
  - intros endpointID. unfold deleteEndpoint.
    destruct (getEndpoint nw endpointID) as [ep|]; [|done].
    destruct (deleteEndpointImpl h nw ep); [done|].
    cbn [fst snd]. intros k p. cbn [network.Endpoints network.set_Endpoints].
    rewrite lookup_delete_Some. intros [_ Hp]. by apply Hkeyed.
  - intros existingEpInfo targetEpInfo. unfold updateEndpoint.
    destruct (network.Endpoints nw !! _) as [stored|]; [|done].
    destruct (updateEndpointImpl h nw existingEpInfo targetEpInfo) as [ep|]; [|done].
    cbn [fst snd]. by apply keyedById_write.
  - intros ep sandboxKey. unfold attachAt.
    pose proof (attach_Id (h ep) sandboxKey) as Hid.
    destruct (attach (h ep) sandboxKey) as [obj err]. cbn [fst] in *.
    by apply keyedById_write.
  - intros ep. unfold detachAt. pose proof (detach_Id (h ep)) as Hid.
    destruct (detach (h ep)) as [obj err]. cbn [fst] in *.
    by apply keyedById_write.
Qed.

(** X16: when every entry is stored under the identifier of its object,
    no object is tracked twice, and the lookup by the identifier of a
    tracked endpoint returns that endpoint. *)
Theorem keyedById_lookup h nw :
  keyedById h nw →
  distinctObjects nw ∧
  ∀ k p, network.Endpoints nw !! k = Some p → getEndpoint nw (endpoint.Id (h p)) = Ok p.
Proof.
  intros Hkeyed. split.
  - intros k1 k2 p H1 H2. by rewrite <- (Hkeyed _ _ H1), <- (Hkeyed _ _ H2).
  - intros k p Hp. unfold getEndpoint. by rewrite (Hkeyed _ _ Hp), Hp.
Qed.

Lemma sameExceptRoutes_refl (e : endpoint.t F) : sameExceptRoutes e e.
Proof. unfold sameExceptRoutes. by repeat split. Qed.

Lemma sameExceptRoutes_set_Routes (routes : list RouteInfo) (e : endpoint.t F) :
  sameExceptRoutes e (endpoint.set_Routes routes e).
Proof. unfold sameExceptRoutes. by repeat split. Qed.

(** X17: whatever its outcome, an update returns the network it was given
    and changes no field of any endpoint other than a route list; when it
    returns an error, it has changed nothing at all. *)
Theorem updateEndpoint_frame h nw (existingEpInfo targetEpInfo : EndpointInfo.t F) :
  (updateEndpoint updateEndpointImpl h nw existingEpInfo targetEpInfo).1.2 = nw ∧
  (∀ q, sameExceptRoutes
          (h q) ((updateEndpoint updateEndpointImpl h nw existingEpInfo targetEpInfo).1.1 q)) ∧
  ((updateEndpoint updateEndpointImpl h nw existingEpInfo targetEpInfo).2 ≠ None →
   ∀ q, (updateEndpoint updateEndpointImpl h nw existingEpInfo targetEpInfo).1.1 q = h q).
Proof.
  unfold updateEndpoint.
  destruct (network.Endpoints nw !! _) as [stored|];
    [|split_and!; [done|intros q; apply sameExceptRoutes_refl|done]].
  destruct (updateEndpointImpl h nw existingEpInfo targetEpInfo) as [ep|];
    [|split_and!; [done|intros q; apply sameExceptRoutes_refl|done]].
  cbn [fst snd]. split_and!; [done| |done].
  intros q. destruct (decide (stored = q)) as [->|Hne].
  - rewrite heap_lookup_insert. apply sameExceptRoutes_set_Routes.
  - rewrite heap_lookup_insert_ne by done. apply sameExceptRoutes_refl.
Qed.

Lemma updateEndpoint_frame_fields h nw (existingEpInfo targetEpInfo : EndpointInfo.t F)
    (p : ptr) :
  endpoint.PODName ((updateEndpoint updateEndpointImpl h nw existingEpInfo targetEpInfo).1.1 p)
  = endpoint.PODName (h p) ∧
  endpoint.PODNameSpace
    ((updateEndpoint updateEndpointImpl h nw existingEpInfo targetEpInfo).1.1 p)
  = endpoint.PODNameSpace (h p).
Proof.
  unfold updateEndpoint.
  destruct (network.Endpoints nw !! _) as [stored|]; [|done].
  destruct (updateEndpointImpl h nw existingEpInfo targetEpInfo) as [ep|]; [|done].
  cbn [fst snd]. destruct (decide (stored = p)) as [->|Hne].
  - by rewrite heap_lookup_insert.
  - by rewrite heap_lookup_insert_ne.
Qed.

Lemma attach_detach_fields (e : endpoint.t F) (key : string) :
  endpoint.PODName (attach e key).1 = endpoint.PODName e ∧
  endpoint.PODNameSpace (attach e key).1 = endpoint.PODNameSpace e ∧
  endpoint.PODName (detach e).1 = endpoint.PODName e ∧
  endpoint.PODNameSpace (detach e).1 = endpoint.PODNameSpace e.
Proof.
  unfold attach, detach. by destruct (String.eqb (endpoint.SandboxKey e) "").
Qed.

(** X18: lookups by pod are not affected by an update, an attach or a
    detach, whatever their outcome: in every order of visit the lookup gives
    the same result on the heap after the call as on the heap before. *)
Theorem getEndpointByPOD_stable h nw (entries : list (string * ptr))
    (podName podNameSpace : string) (exactMatch : bool) :
  (∀ existingEpInfo targetEpInfo,
     getEndpointByPOD_in entries
       (updateEndpoint updateEndpointImpl h nw existingEpInfo targetEpInfo).1.1
       podName podNameSpace exactMatch
     = getEndpointByPOD_in entries h podName podNameSpace exactMatch) ∧
  (∀ ep sandboxKey,
     getEndpointByPOD_in entries (attachAt h ep sandboxKey).1 podName podNameSpace exactMatch
     = getEndpointByPOD_in entries h podName podNameSpace exactMatch) ∧
  (∀ ep,
     getEndpointByPOD_in entries (detachAt h ep).1 podName podNameSpace exactMatch
     = getEndpointByPOD_in entries h podName podNameSpace exactMatch).
Proof.
  unfold getEndpointByPOD_in. split_and!.
  - intros existingEpInfo targetEpInfo. apply getEndpointByPOD_loop_ext. intros p.
    destruct (updateEndpoint_frame_fields h nw existingEpInfo targetEpInfo p) as [H1 H2].
    by rewrite H1, H2.
  - intros ep sandboxKey. apply getEndpointByPOD_loop_ext. intros p. unfold attachAt.
    pose proof (attach_detach_fields (h ep) sandboxKey) as (H1 & H2 & _).
    destruct (attach (h ep) sandboxKey) as [obj err]. cbn [fst] in *.
    destruct (decide (ep = p)) as [->|Hne].
    + by rewrite heap_lookup_insert.
    + by rewrite heap_lookup_insert_ne.
  - intros ep. apply getEndpointByPOD_loop_ext. intros p. unfold detachAt.
    pose proof (attach_detach_fields (h ep) "") as (_ & _ & H1 & H2).
    destruct (detach (h ep)) as [obj err]. cbn [fst] in *.
    destruct (decide (ep = p)) as [->|Hne].
    + by rewrite heap_lookup_insert.
    + by rewrite heap_lookup_insert_ne.
Qed.

End Invariants.

(** ** Batches *)

Section Batches.
Context {F : Foreign}.
Implicit Types (ep : endpoint.t F) (eps : list (endpoint.t F)) (c : string).

Lemma validateEndpoints_loop_accepts c eps :
  validateEndpoints_loop {[ c ]} eps = None
  ↔ ∀ e, e ∈ eps → validMember e ∧ endpoint.ContainerID e = c.
Proof.
  split; [apply validateEndpoints_loop_None|].
  intros Hall. rewrite <- (app_nil_r eps). by rewrite validateEndpoints_loop_prefix.
Qed.

Lemma validateEndpoints_accepts eps :
  validateEndpoints eps = None
  ↔ (∀ ep, ep ∈ eps → validMember ep) ∧ sameContainer eps.
Proof.
  unfold validateEndpoints. destruct eps as [|e0 eps].
  { split; [|done]. intros _. split; [by intros ? ?%elem_of_nil|].
    by intros ? ? ?%elem_of_nil. }
  split.
  - intros Hloop.
    assert (Hv : validMember e0).
    { apply validateEndpoint_valid. cbn [validateEndpoints_loop] in Hloop.
      by destruct (validateEndpoint e0). }
    rewrite validateEndpoints_loop_first in Hloop by done.
    rewrite validateEndpoints_loop_accepts in Hloop.
    assert (Hall : ∀ e, e ∈ e0 :: eps →
              validMember e ∧ endpoint.ContainerID e = endpoint.ContainerID e0).
    { intros e [->|He]%elem_of_cons; [done|by apply Hloop]. }
    split; [intros e He; by apply Hall|].
    intros e1 e2 H1 H2. destruct (Hall _ H1) as [_ ->]. by destruct (Hall _ H2) as [_ ->].
  - intros [Hvalid Hsame].
    rewrite validateEndpoints_loop_first by (apply Hvalid; left).
    apply validateEndpoints_loop_accepts. intros e He.
    split; [apply Hvalid; by right|]. apply Hsame; [by right|left].
Qed.

(** X19: acceptance of a batch does not depend on the order of its
    members, nor on how often a member occurs: a batch all of whose members
    occur in an accepted batch is accepted. In particular every part of an
    accepted batch is accepted. *)
Theorem validateEndpoints_members eps eps' :
  validateEndpoints eps = None →
  (∀ ep, ep ∈ eps' → ep ∈ eps) →
  validateEndpoints eps' = None.
Proof.
  rewrite !validateEndpoints_accepts. intros [Hvalid Hsame] Hsub. split.
  - intros ep Hep. by apply Hvalid, Hsub.
  - intros e1 e2 H1 H2. apply Hsame; by apply Hsub.
Qed.

Lemma validateEndpoints_loop_error c eps err :
  validateEndpoints_loop {[ c ]} eps = Some err →
  (err = InvalidEndpoint ∧ ∃ ep, ep ∈ eps ∧ ¬ validMember ep) ∨
  (err = MultipleContainerIDs ∧
   ∃ ep, ep ∈ eps ∧ validMember ep ∧ endpoint.ContainerID ep ≠ c).
Proof.
  induction eps as [|ep eps IH]; [done|].
  destruct (validateEndpoint ep) as [e|] eqn:Hv.
  - cbn [validateEndpoints_loop]. rewrite Hv.
    assert (Hinvalid : ¬ validMember ep).
    { intros H%validateEndpoint_valid. congruence. }
    unfold validateEndpoint in Hv. destruct (_ || _); [|done]. injection Hv as <-.
    intros [= <-]. left. split; [done|]. exists ep. split; [left|done].
  - apply validateEndpoint_valid in Hv. rewrite validateEndpoints_loop_next by done.
    destruct (decide (endpoint.ContainerID ep = c)) as [Hc|Hc].
    + intros [[-> (e & He & Hbad)]|[-> (e & He & Hbad)]]%IH; [left|right];
        (split; [done|]); exists e; (split; [by right|done]).
    + intros [= <-]. right. split; [done|]. exists ep. split; [left|done].
Qed.

(** X20: what an error of the batch validation says about the batch.
    [InvalidEndpoint] means that some member has an empty container
    identifier or an empty NIC type; [MultipleContainerIDs] means that two
    members pass the per-endpoint validation and differ in their container
    identifiers. No other error is returned. *)
Theorem validateEndpoints_error eps err :
  validateEndpoints eps = Some err →
  (err = InvalidEndpoint ∧
   ∃ ep, ep ∈ eps ∧ (endpoint.ContainerID ep = "" ∨ endpoint.NICType ep = "")) ∨
  (err = MultipleContainerIDs ∧
   ∃ e1 e2, e1 ∈ eps ∧ e2 ∈ eps ∧ validMember e1 ∧ validMember e2 ∧
            endpoint.ContainerID e1 ≠ endpoint.ContainerID e2).
Proof.
  assert (Hempty : ∀ ep, ¬ validMember ep →
            endpoint.ContainerID ep = "" ∨ endpoint.NICType ep = "").
  { intros ep Hbad. unfold validMember in Hbad.
    destruct (decide (endpoint.ContainerID ep = "")); [by left|].
    destruct (decide (endpoint.NICType ep = "")); [by right|]. by destruct Hbad. }
  unfold validateEndpoints. destruct eps as [|e0 eps]; [done|].
  destruct (decide (validMember e0)) as [Hv|Hbad].
  - rewrite validateEndpoints_loop_first by done.
    intros [[-> (e & He & Hbad)]|[-> (e & He & Hev & Hdiff)]]%validateEndpoints_loop_error.
    + left. split; [done|]. exists e. split; [by right|by apply Hempty].
    + right. split; [done|]. exists e0, e. split_and!; try done; [left|by right].
  - rewrite validateEndpoints_loop_invalid by by apply Hempty.
    intros [= <-]. left. split; [done|]. exists e0. split; [left|by apply Hempty].
Qed.

End Batches.

(** ** Snapshots of endpoints *)

Section SnapshotProperties.
Context {F : Foreign}.
Variable getInfoImpl : endpoint.t F → EndpointInfo.t F → EndpointInfo.t F.
Variable updateEndpointImpl :
  heap F → network.t → EndpointInfo.t F → EndpointInfo.t F → result (endpoint.t F).

(** X21: when the platform enrichment leaves the platform handle and the
    host interface name of the snapshot as they are, the snapshot of an
    endpoint is incomplete exactly when the endpoint has neither a platform
    handle nor a host interface name. *)
Theorem getInfo_incomplete (ep : endpoint.t F) :
  (∀ e info,
     EndpointInfo.HNSEndpointID (getInfoImpl e info) = EndpointInfo.HNSEndpointID info ∧
     EndpointInfo.HostIfName (getInfoImpl e info) = EndpointInfo.HostIfName info) →
  IsEndpointStateIncomplete (getInfo getInfoImpl ep) = true
  ↔ endpoint.HnsId ep = "" ∧ endpoint.HostIfName ep = "".
Proof.
  intros Hkeep. unfold IsEndpointStateIncomplete, getInfo.
  destruct (Hkeep ep (getInfo_literal ep)) as [-> ->]. cbn [getInfo_literal
    EndpointInfo.HNSEndpointID EndpointInfo.HostIfName].
  destruct (String.eqb_spec (endpoint.HnsId ep) "");
    destruct (String.eqb_spec (endpoint.HostIfName ep) ""); cbn [andb]; intuition congruence.
Qed.

(** X22: in a directory whose entries are stored under the identifiers of
    their objects, an update whose existing state is the snapshot of a
    tracked endpoint finds that endpoint, when the platform enrichment
    leaves the identifier of the snapshot as it is: the outcome is the one
    of the platform reconciliation, and on success the routes are written
    to that endpoint. *)
Theorem updateEndpoint_of_snapshot (h : heap F) (nw : network.t) (k : string) (p : ptr)
    (targetEpInfo : EndpointInfo.t F) :
  keyedById h nw →
  network.Endpoints nw !! k = Some p →
  (∀ e info, EndpointInfo.EndpointID (getInfoImpl e info) = EndpointInfo.EndpointID info) →
  updateEndpoint updateEndpointImpl h nw (getInfo getInfoImpl (h p)) targetEpInfo
  = match updateEndpointImpl h nw (getInfo getInfoImpl (h p)) targetEpInfo with
    | Err err => (h, nw, Some err)
    | Ok ep => (<[p := endpoint.set_Routes (endpoint.Routes ep) (h p)]> h, nw, None)
    end.
Proof.
  intros Hkeyed Hp Hkeep. unfold updateEndpoint.
  assert (Hid : EndpointInfo.EndpointID (getInfo getInfoImpl (h p)) = k).
  { unfold getInfo. rewrite Hkeep. cbn [getInfo_literal EndpointInfo.EndpointID].
    by apply Hkeyed. }
  by rewrite Hid, Hp.
Qed.

End SnapshotProperties.

(** ** Formatting a slice of pointers *)

Section Format.
Context {T : Type}.
Variable format : T → string.

Lemma append_empty_r (s : string) : s +:+ "" = s.
Proof.
  induction s as [|c s IH]; [reflexivity|].
  change (String c (s +:+ "") = String c s). by f_equal.
Qed.

Lemma FormatSliceOfPointersToString_loop_builder (builder : string)
    (slice : list (option T)) :
  FormatSliceOfPointersToString_loop format builder slice
  = builder +:+ FormatSliceOfPointersToString format slice.
Proof.
  unfold FormatSliceOfPointersToString. revert builder.
  induction slice as [|[v|] slice IH]; intros builder.
  - cbn [FormatSliceOfPointersToString_loop]. by rewrite append_empty_r.
  - cbn [FormatSliceOfPointersToString_loop].
    rewrite (IH (builder +:+ _)), (IH ("" +:+ _)). by rewrite !append_assoc.
  - cbn [FormatSliceOfPointersToString_loop]. apply IH.
Qed.

(** X23: the text for a slice is the text for its first part followed by
    the text for the rest; a [nil] pointer adds nothing, and an element
    adds its own text, a space and a line feed. Hence a slice of [nil]
    pointers gives the empty string. *)
Theorem FormatSliceOfPointersToString_app (slice slice' : list (option T)) (v : T) :
  FormatSliceOfPointersToString format (slice ++ slice')
  = FormatSliceOfPointersToString format slice
    +:+ FormatSliceOfPointersToString format slice' ∧
  FormatSliceOfPointersToString format (None :: slice)
  = FormatSliceOfPointersToString format slice ∧
  FormatSliceOfPointersToString format (Some v :: slice)
  = format v +:+ String " "%char (String newline "")
    +:+ FormatSliceOfPointersToString format slice ∧
  FormatSliceOfPointersToString format (replicate (length slice) None) = "".
Proof.
  split_and!.
  - induction slice as [|[w|] slice IH].
    + reflexivity.
    + unfold FormatSliceOfPointersToString in *.
      cbn [app FormatSliceOfPointersToString_loop].
      rewrite (FormatSliceOfPointersToString_loop_builder _ (slice ++ slice')).
      rewrite (FormatSliceOfPointersToString_loop_builder _ slice).
      unfold FormatSliceOfPointersToString. rewrite IH. by rewrite !append_assoc.
    + apply IH.
  - reflexivity.
  - unfold FormatSliceOfPointersToString at 1. cbn [FormatSliceOfPointersToString_loop].
    rewrite FormatSliceOfPointersToString_loop_builder. by rewrite !append_assoc.
  - induction slice as [|w slice IH]; [reflexivity|]. apply IH.
Qed.

End Format.

(** ** Objects tracked once *)

Section TrackedOnce.
Context {F : Foreign}.
Variable newEndpointImpl :
  heap F → network.t → EndpointInfo.t F → result (ptr * endpoint.t F).
Variable deleteEndpointImpl :
  heap F → network.t → ptr → option error.

(** X2: a directory that tracks no object under two identifiers stays so
    after a creation, when the object the platform returns is not tracked
    yet, and after a delete, whatever its outcome. *)
Theorem distinctObjects_kept (h : heap F) (nw : network.t) :
  distinctObjects nw →
  (∀ epInfo ep built,
     (∀ k, network.Endpoints nw !! k ≠ Some ep) →
     newEndpointImpl h nw epInfo = Ok (ep, built) →
     distinctObjects (newEndpoint newEndpointImpl h nw epInfo).1.2) ∧
  (∀ endpointID,
     distinctObjects (deleteEndpoint deleteEndpointImpl h nw endpointID).1.2).
Proof.
  intros Hdistinct. split.
  - intros epInfo ep built Hfresh Himpl. by eapply newEndpoint_distinctObjects.
  - intros endpointID. by apply deleteEndpoint_distinctObjects.
Qed.

End TrackedOnce.

(** ** The properties on the sample network *)

(** Case analysis on an entry of [twoReplicas]. *)
Ltac entry_of_twoReplicas H :=
  unfold twoReplicas in H; cbn [network.Endpoints] in H;
  repeat (apply lookup_insert_Some in H as [[<- <-]|[? H]]);
  try apply lookup_singleton_Some in H as [<- <-].

Lemma twoReplicas_keyedById : keyedById sampleHeap twoReplicas.
Proof. intros k p H. entry_of_twoReplicas H; reflexivity. Qed.

Lemma twoReplicas_distinctObjects : distinctObjects twoReplicas.
Proof.
  intros k1 k2 p H1 H2.
  pose proof (twoReplicas_keyedById _ _ H1). pose proof (twoReplicas_keyedById _ _ H2).
  congruence.
Qed.

Lemma twoReplicas_fresh (k : string) : network.Endpoints twoReplicas !! k ≠ Some 4%positive.
Proof.
  intros H. unfold twoReplicas in H. cbn [network.Endpoints] in H.
  repeat (apply lookup_insert_Some in H as [[_ ?]|[_ H]]; [discriminate|]).
  by apply lookup_singleton_Some in H as [_ ?].
Qed.

Lemma endpoint_lifecycle_witness :
  getEndpoint createdEp4.1.2 "ep4" = Ok 4%positive ∧
  (detachAt (attachAt createdEp4.1.1 4%positive "sandbox-1").1 4%positive).1 4%positive
  = builtEp4 ∧
  (deleteEndpoint sampleDeleteEndpointImpl
     (detachAt (attachAt createdEp4.1.1 4%positive "sandbox-1").1 4%positive).1
     createdEp4.1.2 "ep4").1.2 = twoReplicas.
Proof.
  pose proof (endpoint_lifecycle sampleNewEndpointImpl sampleDeleteEndpointImpl
                sampleHeap twoReplicas (sampleEndpointInfo "ep4" "" "" [])
                4%positive builtEp4 "sandbox-1") as H.
  destruct H as (_ & Hget & _ & _ & _ & Hobj & _ & Hnw & _).
  - by vm_compute.
  - reflexivity.
  - reflexivity.
  - discriminate.
  - reflexivity.
  - split_and!; [exact Hget|exact Hobj|exact Hnw].
Defined.

Lemma deleteEndpoint_retry_witness :
  deleteEndpoint failingDeleteEndpointImpl deletedEp1.1.1 deletedEp1.1.2 "ep1"
  = (deletedEp1.1.1, deletedEp1.1.2, None).
Proof.
  apply (deleteEndpoint_retry sampleDeleteEndpointImpl failingDeleteEndpointImpl
           sampleHeap twoReplicas "ep1").
  by vm_compute.
Defined.

Lemma newEndpoint_size_witness :
  size (network.Endpoints createdEp4.1.2) = 4.
Proof.
  unfold createdEp4.
  rewrite (newEndpoint_size sampleNewEndpointImpl sampleHeap twoReplicas
             (sampleEndpointInfo "ep4" "" "" []) 4%positive builtEp4 eq_refl).
  by vm_compute.
Defined.

Lemma newEndpoint_replaces_witness :
  getEndpoint
    (newEndpoint sampleNewEndpointImpl sampleHeap twoReplicas
       (sampleEndpointInfo "ep1" "" "" [])).1.2 "ep1" = Ok 4%positive ∧
  ∀ k, network.Endpoints
         (newEndpoint sampleNewEndpointImpl sampleHeap twoReplicas
            (sampleEndpointInfo "ep1" "" "" [])).1.2 !! k ≠ Some 1%positive.
Proof.
  apply (newEndpoint_replaces sampleNewEndpointImpl sampleHeap twoReplicas
           (sampleEndpointInfo "ep1" "" "" []) 4%positive 1%positive
           (sampleEndpoint "ep1" "" "c4" "cache-0" "default" "InfraNIC")).
  - reflexivity.
  - by vm_compute.
  - discriminate.
  - apply twoReplicas_distinctObjects.
Defined.

Lemma newEndpoint_keyedById_witness : keyedById createdEp4.1.1 createdEp4.1.2.
Proof.
  apply (newEndpoint_keyedById sampleNewEndpointImpl sampleHeap twoReplicas
           (sampleEndpointInfo "ep4" "" "" []) 4%positive builtEp4).
  - apply twoReplicas_keyedById.
  - apply twoReplicas_fresh.
  - reflexivity.
Defined.

Lemma keyedById_kept_witness :
  keyedById deletedEp1.1.1 deletedEp1.1.2 ∧
  keyedById (attachAt sampleHeap 1%positive "sandbox-1").1 twoReplicas.
Proof.
  destruct (keyedById_kept sampleDeleteEndpointImpl sampleUpdateEndpointImpl
              sampleHeap twoReplicas twoReplicas_keyedById) as (Hdel & _ & Hatt & _).
  split; [apply Hdel|apply Hatt].
Defined.

Lemma keyedById_lookup_witness :
  distinctObjects twoReplicas ∧
  ∀ k p, network.Endpoints twoReplicas !! k = Some p →
         getEndpoint twoReplicas (endpoint.Id (sampleHeap p)) = Ok p.
Proof. apply (keyedById_lookup sampleHeap twoReplicas), twoReplicas_keyedById. Defined.

Lemma updateEndpoint_frame_witness :
  (updateEndpoint sampleUpdateEndpointImpl sampleHeap twoReplicas
     (sampleEndpointInfo "ep1" "" "" [])
     (sampleEndpointInfo "bad" "" "" [sampleRoute "eth0"])).1.1 1%positive
  = sampleHeap 1%positive.
Proof.
  apply (proj2 (proj2 (updateEndpoint_frame sampleUpdateEndpointImpl sampleHeap twoReplicas
                         (sampleEndpointInfo "ep1" "" "" [])
                         (sampleEndpointInfo "bad" "" "" [sampleRoute "eth0"])))).
  by vm_compute.
Defined.

Lemma validateEndpoints_members_witness :
  validateEndpoints [nicB; nicA; nicB] = None.
Proof.
  apply (validateEndpoints_members [nicA; nicB]).
  - by vm_compute.
  - intros ep Hep.
    repeat (apply elem_of_cons in Hep as [->|Hep]);
      [right; left|left|right; left|by apply elem_of_nil in Hep].
Defined.

Lemma validateEndpoints_error_witness :
  (MultipleContainerIDs = InvalidEndpoint ∧
   ∃ ep, ep ∈ [nicA; nicOther; nicUntyped]
         ∧ (endpoint.ContainerID ep = "" ∨ endpoint.NICType ep = "")) ∨
  (MultipleContainerIDs = MultipleContainerIDs ∧
   ∃ e1 e2, e1 ∈ [nicA; nicOther; nicUntyped] ∧ e2 ∈ [nicA; nicOther; nicUntyped] ∧
            validMember e1 ∧ validMember e2 ∧
            endpoint.ContainerID e1 ≠ endpoint.ContainerID e2).
Proof.
  apply (validateEndpoints_error [nicA; nicOther; nicUntyped] MultipleContainerIDs).
  by vm_compute.
Defined.

Lemma getInfo_incomplete_witness :
  IsEndpointStateIncomplete (getInfo sampleGetInfoImpl unattached) = true
  ↔ endpoint.HnsId unattached = "" ∧ endpoint.HostIfName unattached = "".
Proof.
  apply (getInfo_incomplete sampleGetInfoImpl unattached). intros e info. by split.
Defined.

Lemma updateEndpoint_of_snapshot_witness :
  updateEndpoint sampleUpdateEndpointImpl sampleHeap twoReplicas
    (getInfo sampleGetInfoImpl (sampleHeap 1%positive))
    (sampleEndpointInfo "ep1" "" "" [sampleRoute "eth0"])
  = match sampleUpdateEndpointImpl sampleHeap twoReplicas
            (getInfo sampleGetInfoImpl (sampleHeap 1%positive))
            (sampleEndpointInfo "ep1" "" "" [sampleRoute "eth0"]) with
    | Err err => (sampleHeap, twoReplicas, Some err)
    | Ok ep =>
        (<[1%positive := endpoint.set_Routes (endpoint.Routes ep) (sampleHeap 1%positive)]>
           sampleHeap, twoReplicas, None)
    end.
Proof.
  apply (updateEndpoint_of_snapshot sampleGetInfoImpl sampleUpdateEndpointImpl
           sampleHeap twoReplicas "ep1" 1%positive).
  - apply twoReplicas_keyedById.
  - by vm_compute.
  - reflexivity.
Defined.

Lemma distinctObjects_kept_witness :
  distinctObjects createdEp4.1.2 ∧ distinctObjects deletedEp1.1.2.
Proof.
  destruct (distinctObjects_kept sampleNewEndpointImpl sampleDeleteEndpointImpl
              sampleHeap twoReplicas twoReplicas_distinctObjects) as [Hnew Hdel].
  split.
  - apply (Hnew (sampleEndpointInfo "ep4" "" "" []) 4%positive builtEp4);
      [apply twoReplicas_fresh|reflexivity].
  - apply Hdel.
Defined.

(** ** Lookup by pod, with the stripping spelled out *)

Lemma GetPodNameWithoutSuffix_strippedTo (stored query : string) :
  GetPodNameWithoutSuffix stored = query ↔ strippedTo stored query.
Proof.
  unfold strippedTo. split.
  - intros Hstrip. destruct (decide (hyphens stored ≤ 1)) as [Hfew|Hmany].
    + left. split; [done|].
      by rewrite <- Hstrip, (proj2 (GetPodNameWithoutSuffix_fixed stored) Hfew).
    + right.
      destruct (GetPodNameWithoutSuffix_strip stored)
        as (base & a & b & Ha & Hb & Hname & _ & Hbase); [lia|].
      exists a, b. split_and!; [done..|]. by rewrite <- Hstrip, Hbase.
  - intros [[Hfew <-]|(a & b & Ha & Hb & ->)].
    + by apply GetPodNameWithoutSuffix_fixed.
    + by apply GetPodNameWithoutSuffix_unique.
Qed.

Lemma GetPodNameWithoutSuffix_stripLastTwoSegments (podName : string) :
  2 ≤ hyphens podName →
  GetPodNameWithoutSuffix podName = stripLastTwoSegments podName.
Proof.
  intros Hmany. unfold GetPodNameWithoutSuffix, stripLastTwoSegments. cbv zeta.
  rewrite Split_length. by destruct (Nat.ltb_spec 2 (S (hyphens podName))); [|lia].
Qed.

Lemma candidate_podCandidate (F : Foreign) (ep : endpoint.t F)
    (podName podNameSpace : string) (exactMatch : bool) :
  candidate ep podName podNameSpace exactMatch
  ↔ podCandidate ep podName podNameSpace exactMatch.
Proof.
  unfold candidate, podCandidate. destruct exactMatch; [done|].
  by rewrite GetPodNameWithoutSuffix_strippedTo.
Qed.

(** C1, as the code has it. With [exactMatch] an endpoint is a candidate
    exactly when its stored pod name equals the query and its namespace
    equals the queried namespace. Without it an endpoint is a candidate
    exactly when its namespace equals the queried namespace and its stored
    pod name either has at most one hyphen (two segments or fewer) and
    equals the query as it is, or is the query followed by two further
    hyphen-delimited segments; for a stored name of three segments or more
    that is to say that the name with its trailing two segments stripped
    equals the query. In whatever order the directory is visited, the
    lookup fails with [EndpointNotFound] when no entry is a candidate, fails
    with [AmbiguousMatch] when two entries are, and returns the endpoint of
    the only candidate otherwise. *)
Theorem getEndpointByPOD_candidates (F : Foreign) (h : heap F) (nw : network.t)
    (entries : list (string * ptr)) (podName podNameSpace : string) (exactMatch : bool) :
  range_order nw entries →
  (∀ ep : endpoint.t F,
     matchesPOD ep podName podNameSpace exactMatch = true
     ↔ (if exactMatch then endpoint.PODName ep = podName
        else (hyphens (endpoint.PODName ep) ≤ 1 ∧ endpoint.PODName ep = podName) ∨
             (∃ a b, hyphens a = 0 ∧ hyphens b = 0 ∧
                     endpoint.PODName ep = podName +:+ "-" +:+ a +:+ "-" +:+ b))
       ∧ endpoint.PODNameSpace ep = podNameSpace) ∧
  (∀ stored, 2 ≤ hyphens stored →
             (strippedTo stored podName ↔ stripLastTwoSegments stored = podName)) ∧
  ((∀ k p, network.Endpoints nw !! k = Some p →
           ¬ podCandidate (h p) podName podNameSpace exactMatch) →
   getEndpointByPOD_in entries h podName podNameSpace exactMatch
   = Err EndpointNotFound) ∧
  (∀ k1 p1 k2 p2,
     k1 ≠ k2 →
     network.Endpoints nw !! k1 = Some p1 → network.Endpoints nw !! k2 = Some p2 →
     podCandidate (h p1) podName podNameSpace exactMatch →
     podCandidate (h p2) podName podNameSpace exactMatch →
     getEndpointByPOD_in entries h podName podNameSpace exactMatch
     = Err AmbiguousMatch) ∧
  (∀ k p,
     network.Endpoints nw !! k = Some p →
     podCandidate (h p) podName podNameSpace exactMatch →
     (∀ k' p', network.Endpoints nw !! k' = Some p' →
               podCandidate (h p') podName podNameSpace exactMatch → k' = k) →
     getEndpointByPOD_in entries h podName podNameSpace exactMatch = Ok p).
Proof.
  intros Horder.
  destruct (getEndpointByPOD_spec h nw entries podName podNameSpace exactMatch Horder)
    as (_ & Hnone & Htwo & Hone).
  split_and!.
  - intros ep. rewrite matchesPOD_candidate, candidate_podCandidate. reflexivity.
  - intros stored Hmany.
    by rewrite <- GetPodNameWithoutSuffix_strippedTo,
               GetPodNameWithoutSuffix_stripLastTwoSegments.
  - intros Hno. apply Hnone. intros k p Hk Hc%candidate_podCandidate.
    by apply (Hno k p).
  - intros k1 p1 k2 p2 Hne H1 H2 Hc1 Hc2.
    apply (Htwo k1 p1 k2 p2); try done; by apply candidate_podCandidate.
  - intros k p Hk Hc Huniq. apply (Hone k p); [done|by apply candidate_podCandidate|].
    intros k' p' Hk' Hc'. apply (Huniq k' p' Hk'). by apply candidate_podCandidate.
Qed.

Lemma getEndpointByPOD_candidates_witness :
  getEndpointByPOD_in [("ep1", 1%positive); ("ep3", 3%positive)]
    sampleHeap "web" "default" false = Ok 1%positive ∧
  getEndpointByPOD_in [("ep1", 1%positive); ("ep3", 3%positive)]
    sampleHeap "db-0" "default" false = Ok 3%positive ∧
  getEndpointByPOD_in [("ep1", 1%positive); ("ep3", 3%positive)]
    sampleHeap "web-7f9c8d-abcde" "default" true = Ok 1%positive ∧
  getEndpointByPOD_in [("ep1", 1%positive); ("ep3", 3%positive)]
    sampleHeap "web" "kube-system" false = Err EndpointNotFound ∧
  getEndpointByPOD_in [("ep2", 2%positive); ("ep3", 3%positive); ("ep1", 1%positive)]
    sampleHeap "web" "default" false = Err AmbiguousMatch ∧
  (strippedTo "web-7f9c8d-abcde" "web" ↔ stripLastTwoSegments "web-7f9c8d-abcde" = "web").
Proof.
  assert (Horder1 : range_order replicaAndDb [("ep1", 1%positive); ("ep3", 3%positive)]).
  { unfold range_order. vm_compute. apply perm_swap. }
  assert (Horder2 : range_order twoReplicas
            [("ep2", 2%positive); ("ep3", 3%positive); ("ep1", 1%positive)]).
  { unfold range_order. vm_compute. apply (Permutation_app_comm [_] [_; _]). }
  assert (Hkeys : ∀ (P : string → ptr → Prop) k p,
            network.Endpoints replicaAndDb !! k = Some p →
            P "ep1" 1%positive → P "ep3" 3%positive → P k p).
  { intros P k p Hk H1 H3. unfold replicaAndDb in Hk. cbn [network.Endpoints] in Hk.
    apply lookup_insert_Some in Hk as [[<- <-]|[_ Hk]]; [done|].
    by apply lookup_singleton_Some in Hk as [<- <-]. }
  assert (Hweb : ∀ p, podCandidate (sampleHeap p) "web" "default" false →
                      candidate (sampleHeap p) "web" "default" false)
    by (intros p; apply candidate_podCandidate).
  split_and!.
  - apply (proj2 (proj2 (proj2 (proj2 (getEndpointByPOD_candidates noForeign sampleHeap
             replicaAndDb _ "web" "default" false Horder1)))) "ep1"); [done| |].
    + split; [|reflexivity]. right. by exists "7f9c8d", "abcde".
    + intros k' p' Hk'.
      apply (Hkeys (λ k p, podCandidate (sampleHeap p) _ _ _ → k = "ep1") k' p' Hk');
        [done|]. intros [H _]%candidate_podCandidate. by vm_compute in H.
  - apply (proj2 (proj2 (proj2 (proj2 (getEndpointByPOD_candidates noForeign sampleHeap
             replicaAndDb _ "db-0" "default" false Horder1)))) "ep3"); [done| |].
    + split; [|reflexivity]. left. split; [vm_compute; lia|reflexivity].
    + intros k' p' Hk'.
      apply (Hkeys (λ k p, podCandidate (sampleHeap p) _ _ _ → k = "ep3") k' p' Hk');
        [|done]. intros [H _]%candidate_podCandidate. by vm_compute in H.
  - apply (proj2 (proj2 (proj2 (proj2 (getEndpointByPOD_candidates noForeign sampleHeap
             replicaAndDb _ "web-7f9c8d-abcde" "default" true Horder1)))) "ep1");
      [done|by split|].
    intros k' p' Hk'.
    apply (Hkeys (λ k p, podCandidate (sampleHeap p) _ _ _ → k = "ep1") k' p' Hk');
      [done|]. intros [H _]. by vm_compute in H.
  - apply (proj1 (proj2 (proj2 (getEndpointByPOD_candidates noForeign sampleHeap
             replicaAndDb _ "web" "kube-system" false Horder1)))).
    intros k p Hk.
    apply (Hkeys (λ k p, ¬ podCandidate (sampleHeap p) _ _ _) k p Hk);
      intros [_ H]; by vm_compute in H.
  - apply (proj1 (proj2 (proj2 (proj2 (getEndpointByPOD_candidates noForeign sampleHeap
             twoReplicas _ "web" "default" false Horder2)))) "ep1" 1%positive "ep2" 2%positive);
      try done.
    + split; [|reflexivity]. right. by exists "7f9c8d", "abcde".
    + split; [|reflexivity]. right. by exists "7f9c8d", "fghij".
  - apply (proj1 (proj2 (getEndpointByPOD_candidates noForeign sampleHeap
             replicaAndDb _ "web" "default" false Horder1))).
    vm_compute. lia.
Defined.

(** C1 as stated does not hold for a stored pod name of two segments.
    Stripped of its trailing two segments the name [db-0] is empty, so by
    the claim the endpoint is no candidate of the query [db-0]; the code
    compares the name as it is and returns the endpoint. *)
Lemma getEndpointByPOD_short_name_counterexample :
  endpoint.PODName (sampleHeap 3%positive) = "db-0" ∧
  stripLastTwoSegments (endpoint.PODName (sampleHeap 3%positive)) = "" ∧
  matchesPOD (sampleHeap 3%positive) "db-0" "default" false = true ∧
  getEndpointByPOD sampleHeap dbOnly "db-0" "default" false = Ok 3%positive ∧
  getEndpointByPOD sampleHeap dbOnly "" "default" false = Err EndpointNotFound ∧
  ¬ (∀ (ep : endpoint.t noForeign) (podName podNameSpace : string),
       matchesPOD ep podName podNameSpace false = true
       ↔ stripLastTwoSegments (endpoint.PODName ep) = podName
         ∧ endpoint.PODNameSpace ep = podNameSpace).
Proof.
  split_and!; [reflexivity|reflexivity|reflexivity|by vm_compute|by vm_compute|].
  intros H. destruct (proj1 (H (sampleHeap 3%positive) "db-0" "default") eq_refl) as [Hs _].
  discriminate Hs.
Qed.
